(** * MukkamTravels: the page script ([script.js]) over a DOM heap

    The script of the site is one closure that, once the markup is parsed,
    rewrites text for the chosen language, sets the colour theme, wires the
    accordion and the mobile navigation and reveals elements on scroll.  It
    has no data of its own: everything it reads and writes is the browser's
    DOM, [localStorage] and the listeners it registers.

    The repository holds two copies of the script.  [src/script.js] is called
    [ScriptJs] below and the older copy (inline emoji for the theme button,
    one accordion found by its id, ambient colour scheme as the theme
    default) is called [Part000].

    The DOM is modelled as a heap of element objects addressed by an
    identity ([nid]); an element's child list refers to other elements by
    identity.  A node that an assignment to [textContent] or [innerHTML]
    removes from its parent stays in the heap, as it does in the browser
    while a [NodeList] still refers to it. *)

From stdpp Require Import base strings gmap list fin_maps pretty.

Open Scope string_scope.

(** ** DOM objects *)

Abbreviation nid := nat.

(** A child of an element: a text node, another element, or the nodes the
    browser parsed from a markup string assigned to [innerHTML] (kept as
    the markup itself). *)
Inductive child :=
| CText (s : string)
| CElem (n : nid)
| CMarkup (html : string).

Global Instance child_eq_dec : EqDecision child.
Proof. solve_decision. Defined.

(** The part of an element the script reads or writes.  [attrs] holds the
    content attributes other than [class] and [style]; [classList] is the
    token list of [class]; [maxHeight] is [style.maxHeight], [None] when the
    inline style does not set it. *)
Record element := Element {
  tag : string;
  attrs : gmap string string;
  classList : list string;
  maxHeight : option string;
  kids : list child
}.

Global Instance element_eq_dec : EqDecision element.
Proof. solve_decision. Defined.

Definition with_attrs (f : gmap string string → gmap string string) (e : element) : element :=
  {| tag := tag e; attrs := f (attrs e); classList := classList e;
     maxHeight := maxHeight e; kids := kids e |}.

Definition with_classList (f : list string → list string) (e : element) : element :=
  {| tag := tag e; attrs := attrs e; classList := f (classList e);
     maxHeight := maxHeight e; kids := kids e |}.

Definition with_maxHeight (v : option string) (e : element) : element :=
  {| tag := tag e; attrs := attrs e; classList := classList e;
     maxHeight := v; kids := kids e |}.

Definition with_kids (k : list child) (e : element) : element :=
  {| tag := tag e; attrs := attrs e; classList := classList e;
     maxHeight := maxHeight e; kids := k |}.

(** ** The page: DOM heap, storage and registered callbacks *)

(** The five kinds of click callback the script registers.  The closures of
    the source capture the elements named here. *)
Inductive listener :=
| AccordionClick (item btn panel : nid)
| MenuToggleClick (btn nav : nid)
| NavLinkClick (nav : nid)
| LangToggleClick
| ThemeToggleClick.

Global Instance listener_eq_dec : EqDecision listener.
Proof. solve_decision. Defined.

Record page := Page {
  nodes : gmap nid element;
  documentElement : nid;
  localStorage : gmap string string;
  clickListeners : list (nid * listener);
  observed : list nid
}.

(** What the browser supplies: the calendar year, whether the ambient colour
    scheme is dark ([false] also when [matchMedia] is missing), and the
    layout height [scrollHeight] of an element in a given DOM. *)
Record env := Env {
  currentYear : N;
  prefersDark : bool;
  scrollHeight : gmap nid element → nid → N
}.

Inductive variant := ScriptJs | Part000.

Definition LS_LANG : string := "site-lang".
Definition LS_THEME : string := "site-theme".

(** *** Reading the tree *)

(** Elements below [n], [n] first, in tree order.  The heap is not a tree by
    construction, so the walk is bounded by [fuel]: one unit per level. *)
Fixpoint tree_order (fuel : nat) (h : gmap nid element) (n : nid) : list nid :=
  match fuel with
  | O => []
  | S f =>
      match h !! n with
      | None => []
      | Some e =>
          n :: flat_map (λ c, match c with CElem m => tree_order f h m | _ => [] end) (kids e)
      end
  end.

(** A branch of a tree never has more elements than the heap, so the number
    of elements is fuel enough ([subtree_complete] below). *)
Definition subtree (h : gmap nid element) (n : nid) : list nid :=
  tree_order (size h) h n.

(** The selectors the script uses: [[name]], [#a, #b], [.c] and a tag name. *)
Inductive selector :=
| SelAttr (name : string)
| SelIds (ids : list string)
| SelClass (c : string)
| SelTag (t : string).

Definition matches (sel : selector) (e : element) : bool :=
  match sel with
  | SelAttr k => bool_decide (is_Some (attrs e !! k))
  | SelIds ids =>
      match attrs e !! "id" with
      | Some i => bool_decide (i ∈ ids)
      | None => false
      end
  | SelClass c => bool_decide (c ∈ classList e)
  | SelTag t => bool_decide (tag e = t)
  end.

Definition node_matches (sel : selector) (h : gmap nid element) (n : nid) : bool :=
  from_option (matches sel) false (h !! n).

Definition select (sel : selector) (h : gmap nid element) (l : list nid) : list nid :=
  filter (λ n, node_matches sel h n) l.

Definition querySelectorAll (sel : selector) (p : page) : list nid :=
  select sel (nodes p) (subtree (nodes p) (documentElement p)).

Definition getElementById (i : string) (p : page) : option nid :=
  head (querySelectorAll (SelIds [i]) p).

(** [el.querySelectorAll] and [el.querySelector] search below [el] only. *)
Definition elem_querySelectorAll (sel : selector) (p : page) (el : nid) : list nid :=
  select sel (nodes p) (tail (subtree (nodes p) el)).

Definition elem_querySelector (sel : selector) (p : page) (el : nid) : option nid :=
  head (elem_querySelectorAll sel p el).

Definition getAttribute (p : page) (n : nid) (k : string) : option string :=
  nodes p !! n ≫= λ e, attrs e !! k.

Definition classes (p : page) (n : nid) : list string :=
  from_option classList [] (nodes p !! n).

Definition style_maxHeight (p : page) (n : nid) : option string :=
  nodes p !! n ≫= maxHeight.

Definition childNodes (p : page) (n : nid) : list child :=
  from_option kids [] (nodes p !! n).

(** The [textContent] getter: the text nodes below an element, in order.
    The two markup strings the script assigns hold no text. *)
Fixpoint text_of (fuel : nat) (h : gmap nid element) (n : nid) : string :=
  match fuel with
  | O => ""
  | S f =>
      match h !! n with
      | None => ""
      | Some e =>
          String.concat ""
            (map (λ c, match c with
                       | CText s => s
                       | CElem m => text_of f h m
                       | CMarkup _ => ""
                       end) (kids e))
      end
  end.

Definition textContent (p : page) (n : nid) : string :=
  text_of (size (nodes p)) (nodes p) n.

(** *** Writing *)

Definition update_node (n : nid) (f : element → element) (p : page) : page :=
  {| nodes := alter f n (nodes p);
     documentElement := documentElement p;
     localStorage := localStorage p;
     clickListeners := clickListeners p;
     observed := observed p |}.

(** Assigning [textContent] replaces all children by one text node, or by
    nothing when the string is empty. *)
Definition text_children (s : string) : list child :=
  if decide (s = "") then [] else [CText s].

Definition set_textContent (n : nid) (s : string) : page → page :=
  update_node n (with_kids (text_children s)).

Definition markup_children (html : string) : list child :=
  if decide (html = "") then [] else [CMarkup html].

Definition set_innerHTML (n : nid) (html : string) : page → page :=
  update_node n (with_kids (markup_children html)).

Definition setAttribute (n : nid) (k v : string) : page → page :=
  update_node n (with_attrs <[k := v]>).

Definition set_style_maxHeight (n : nid) (v : option string) : page → page :=
  update_node n (with_maxHeight v).

Definition token_add (c : string) (l : list string) : list string :=
  if decide (c ∈ l) then l else l ++ [c].

Definition token_remove (c : string) (l : list string) : list string :=
  filter (λ x, x ≠ c) l.

Definition classList_add (n : nid) (c : string) : page → page :=
  update_node n (with_classList (token_add c)).

Definition classList_remove (n : nid) (c : string) : page → page :=
  update_node n (with_classList (token_remove c)).

(** [classList.toggle] returns whether the token is present afterwards. *)
Definition classList_toggle (n : nid) (c : string) (p : page) : bool * page :=
  if decide (c ∈ classes p n)
  then (false, classList_remove n c p)
  else (true, classList_add n c p).

Definition localStorage_getItem (k : string) (p : page) : option string :=
  localStorage p !! k.

Definition localStorage_setItem (k v : string) (p : page) : page :=
  {| nodes := nodes p;
     documentElement := documentElement p;
     localStorage := <[k := v]> (localStorage p);
     clickListeners := clickListeners p;
     observed := observed p |}.

Definition addEventListener (n : nid) (l : listener) (p : page) : page :=
  {| nodes := nodes p;
     documentElement := documentElement p;
     localStorage := localStorage p;
     clickListeners := clickListeners p ++ [(n, l)];
     observed := observed p |}.

Definition observe (n : nid) (p : page) : page :=
  {| nodes := nodes p;
     documentElement := documentElement p;
     localStorage := localStorage p;
     clickListeners := clickListeners p;
     observed := observed p ++ [n] |}.

(** JavaScript's [a || b] on a value that is [null] or a string. *)
Definition or_else (o : option string) (d : string) : string :=
  match o with
  | Some s => if decide (s = "") then d else s
  | None => d
  end.

(** ** The script *)

(** *** [setYear] *)

Definition setYear (E : env) (p : page) : page :=
  let y := pretty (currentYear E) in
  let el := getElementById "year" p in
  let el2 := getElementById "year-2" p in
  let p1 := match el with Some n => set_textContent n y p | None => p end in
  match el2 with Some n => set_textContent n y p1 | None => p1 end.

(** *** Language *)

(** The body of the loop over [[data-en]] elements. *)
Definition translate (lang : string) (p : page) (el : nid) : page :=
  let en := getAttribute p el "data-en" in
  let ml := getAttribute p el "data-ml" in
  match decide (lang = "ml"), ml with
  | left _, Some m => set_textContent el m p
  | _, _ =>
      match en with
      | Some e => set_textContent el e p
      | None => p
      end
  end.

Definition lang_label (lang : string) : string :=
  if decide (lang = "ml") then "ML" else "EN".

Definition lang_toggles : selector := SelIds ["lang-toggle"; "lang-toggle-2"].

Definition applyLanguage (lang : string) (p : page) : page :=
  let p1 := foldl (translate lang) p (querySelectorAll (SelAttr "data-en") p) in
  let p2 := foldl (λ q btn, set_textContent btn (lang_label lang) q) p1
                  (querySelectorAll lang_toggles p1) in
  localStorage_setItem LS_LANG lang p2.

(** *** Theme *)

Definition dq : string := String (Ascii.ascii_of_nat 34) "".

Definition svg_attr (name value : string) : string :=
  " " ++ name ++ "=" ++ dq ++ value ++ dq.

Definition svg_icon (path : string) : string :=
  "<svg" ++ svg_attr "viewBox" "0 0 24 24" ++ svg_attr "width" "18"
  ++ svg_attr "height" "18" ++ svg_attr "xmlns" "http://www.w3.org/2000/svg"
  ++ svg_attr "aria-hidden" "true" ++ "><path" ++ svg_attr "fill" "currentColor"
  ++ svg_attr "d" path ++ "/></svg>".

Definition MOON_SVG : string :=
  svg_icon "M21 12.79A9 9 0 1111.21 3 7 7 0 0021 12.79z".

Definition SUN_SVG : string :=
  svg_icon "M6.76 4.84l-1.8-1.79L3.17 4.85l1.79 1.79L6.76 4.84zM1 13h3v-2H1v2zm10 9h2v-3h-2v3zm7.04-17.04l1.79-1.79-1.79-1.79-1.79 1.79 1.79 1.79zM17 13h3v-2h-3v2zM6.76 19.16l-1.79 1.79 1.79 1.79 1.79-1.79-1.79-1.79zM12 6a6 6 0 100 12 6 6 0 000-12z".

Definition theme_toggles : selector := SelIds ["theme-toggle"; "theme-toggle-2"].

(** What a theme button shows: the icon of the mode a click would switch
    to.  [script.js] assigns [innerHTML], the older copy [textContent]. *)
Definition show_theme (v : variant) (theme : string) (q : page) (btn : nid) : page :=
  match v with
  | ScriptJs => set_innerHTML btn (if decide (theme = "dark") then SUN_SVG else MOON_SVG) q
  | Part000 => set_textContent btn (if decide (theme = "dark") then "☀️" else "🌙") q
  end.

Definition theme_attr (theme : string) : string :=
  if decide (theme = "dark") then "dark" else "light".

Definition applyTheme (v : variant) (theme : string) (p : page) : page :=
  let p1 := setAttribute (documentElement p) "data-theme" (theme_attr theme) p in
  let p2 := foldl (show_theme v theme) p1 (querySelectorAll theme_toggles p1) in
  localStorage_setItem LS_THEME theme p2.

(** *** Scroll reveal *)

Definition setupObserver (p : page) : page :=
  foldl (λ q el, observe el q) p (querySelectorAll (SelClass "fade-in") p).

(** The callback of the [IntersectionObserver]; an entry is its target and
    its [isIntersecting] flag. *)
Definition reveal (q : page) (e : nid * bool) : page :=
  if e.2 then classList_add e.1 "visible" q else q.

Definition observer_callback (entries : list (nid * bool)) (p : page) : page :=
  foldl reveal p entries.

(** *** Accordion *)

(** The click callback of one item. *)
Definition accordion_click (E : env) (item btn panel : nid) (p : page) : page :=
  let '(isOpen, p1) := classList_toggle item "open" p in
  let p2 := setAttribute btn "aria-expanded" (if isOpen then "true" else "false") p1 in
  if isOpen
  then set_style_maxHeight panel (Some (pretty (scrollHeight E (nodes p2) panel) ++ "px")) p2
  else set_style_maxHeight panel None p2.

(** The callbacks registered for the items of one container; an item
    without a header or without a panel gets none. *)
Definition accordion_listeners (p : page) (container : nid) : list (nid * listener) :=
  omap (λ item,
          match elem_querySelector (SelClass "accordion-header") p item,
                elem_querySelector (SelClass "accordion-panel") p item with
          | Some btn, Some panel => Some (btn, AccordionClick item btn panel)
          | _, _ => None
          end)
       (elem_querySelectorAll (SelClass "accordion-item") p container).

Definition add_listeners (ls : list (nid * listener)) (p : page) : page :=
  foldl (λ q l, addEventListener l.1 l.2 q) p ls.

Definition setupAccordion_listeners (v : variant) (p : page) : list (nid * listener) :=
  match v with
  | ScriptJs => flat_map (accordion_listeners p) (querySelectorAll (SelClass "accordion") p)
  | Part000 =>
      match getElementById "services-accordion" p with
      | None => []
      | Some container => accordion_listeners p container
      end
  end.

Definition setupAccordion (v : variant) (p : page) : page :=
  add_listeners (setupAccordion_listeners v p) p.

(** *** Navigation *)

Definition menu_toggle_click (btn nav : nid) (p : page) : page :=
  let '(open, p1) := classList_toggle nav "open" p in
  setAttribute btn "aria-expanded" (if open then "true" else "false") p1.

Definition nav_link_click (nav : nid) (p : page) : page :=
  classList_remove nav "open" p.

Definition setupNavToggle_listeners (p : page) : list (nid * listener) :=
  match getElementById "menu-toggle" p, getElementById "nav-links" p with
  | Some btn, Some nav =>
      (btn, MenuToggleClick btn nav)
        :: ((λ a, (a, NavLinkClick nav)) <$> elem_querySelectorAll (SelTag "a") p nav)
  | _, _ => []
  end.

Definition setupNavToggle (p : page) : page :=
  add_listeners (setupNavToggle_listeners p) p.

(** *** The toggle buttons and page load *)

Definition lang_toggle_click (p : page) : page :=
  let newLang :=
    if decide (localStorage_getItem LS_LANG p = Some "ml") then "en" else "ml" in
  applyLanguage newLang p.

Definition theme_toggle_click (v : variant) (p : page) : page :=
  let current := getAttribute p (documentElement p) "data-theme" in
  applyTheme v (if decide (current = Some "dark") then "light" else "dark") p.

Definition run_listener (v : variant) (E : env) (l : listener) (p : page) : page :=
  match l with
  | AccordionClick item btn panel => accordion_click E item btn panel p
  | MenuToggleClick btn nav => menu_toggle_click btn nav p
  | NavLinkClick nav => nav_link_click nav p
  | LangToggleClick => lang_toggle_click p
  | ThemeToggleClick => theme_toggle_click v p
  end.

(** The language and the theme that page load resolves from the store. *)
Definition savedLang (p : page) : string :=
  or_else (localStorage_getItem LS_LANG p) "en".

Definition default_theme (v : variant) (E : env) : string :=
  match v with
  | ScriptJs => "dark"
  | Part000 => if prefersDark E then "dark" else "light"
  end.

Definition savedTheme (v : variant) (E : env) (p : page) : string :=
  or_else (localStorage_getItem LS_THEME p) (default_theme v E).

(** The [DOMContentLoaded] callback. *)
Definition onDOMContentLoaded (v : variant) (E : env) (p : page) : page :=
  let p1 := setYear E p in
  let p2 := setupObserver p1 in
  let p3 := setupNavToggle p2 in
  let p4 := setupAccordion v p3 in
  let p5 := applyLanguage (savedLang p4) p4 in
  let p6 := applyTheme v (savedTheme v E p5) p5 in
  let p7 := foldl (λ q btn, addEventListener btn LangToggleClick q) p6
                  (querySelectorAll lang_toggles p6) in
  foldl (λ q btn, addEventListener btn ThemeToggleClick q) p7
        (querySelectorAll theme_toggles p7).

(** A click whose target is [n] itself: the callbacks registered on [n] run
    in the order of their registration.  Callbacks on the ancestors of [n],
    which the browser runs afterwards while the event bubbles, are left
    out. *)
Definition click_on (v : variant) (E : env) (n : nid) (p : page) : page :=
  foldl (λ q l, run_listener v E l q) p
        (snd <$> filter (λ x, x.1 = n) (clickListeners p)).

(** ** Pages used as concrete inputs *)

Definition elem (t : string) (a : list (string * string)) (c : list string)
    (k : list child) : element :=
  {| tag := t; attrs := list_to_map a; classList := c; maxHeight := None; kids := k |}.

Definition mk_page (l : list (nid * element)) (store : list (string * string)) : page :=
  {| nodes := list_to_map l; documentElement := 0; localStorage := list_to_map store;
     clickListeners := []; observed := [] |}.

Definition demo_env : env :=
  {| currentYear := 2025; prefersDark := false; scrollHeight := λ _ _, 120%N |}.

(** A page in the shape the comments of the script describe. *)
Definition demo_nodes : list (nid * element) :=
  [ (0, elem "html" [("lang", "en")] [] [CElem 1]);
    (1, elem "body" [] []
          [CElem 2; CElem 3; CElem 6; CElem 9; CElem 14; CElem 15; CElem 17]);
    (2, elem "button" [("id", "menu-toggle"); ("aria-expanded", "false")] [] [CText "Menu"]);
    (3, elem "nav" [("id", "nav-links")] ["open"] [CElem 4; CElem 5]);
    (4, elem "a" [("href", "index.html"); ("data-en", "Home"); ("data-ml", "ഹോം")] []
          [CText "Home"]);
    (5, elem "a" [("href", "services.html"); ("data-en", "Services")] [] [CText "Services"]);
    (6, elem "div" [] ["controls"] [CElem 7; CElem 8]);
    (7, elem "button" [("id", "lang-toggle")] [] [CText "EN"]);
    (8, elem "button" [("id", "theme-toggle")] [] []);
    (9, elem "section" [("id", "services-accordion")] ["accordion"] [CElem 10; CElem 20]);
    (10, elem "article" [] ["accordion-item"] [CElem 11; CElem 12]);
    (11, elem "button" [("aria-expanded", "false")] ["accordion-header"] [CElem 13]);
    (12, elem "div" [] ["accordion-panel"] [CText "Day trips and packages"]);
    (13, elem "span" [("data-en", "Tours"); ("data-ml", "യാത്രകൾ")] [] [CText "Tours"]);
    (14, elem "h1" [("data-en", "Welcome"); ("data-ml", "സ്വാഗതം")] ["fade-in"]
           [CText "Welcome"]);
    (15, elem "p" [("data-ml", "നന്ദി")] [] [CText "Thank you"]);
    (17, elem "footer" [] [] [CText "(c) "; CElem 18]);
    (18, elem "span" [("id", "year")] [] []);
    (20, elem "article" [] ["accordion-item"] [CElem 21; CElem 22]);
    (21, elem "button" [("aria-expanded", "false")] ["accordion-header"] [CText "Taxi"]);
    (22, elem "div" [] ["accordion-panel"] [CText "Airport pickup"]) ].

Definition demo_page : page := mk_page demo_nodes [].

(** A language button that itself carries the two text attributes. *)
Definition labelled_toggle_page : page :=
  mk_page
    [ (0, elem "html" [] [] [CElem 1]);
      (1, elem "button" [("id", "lang-toggle"); ("data-en", "Language"); ("data-ml", "ഭാഷ")]
            [] [CText "Language"]) ]
    [].


(** A page whose markup has the link container, already open, but no
    [#menu-toggle] button. *)
Definition no_menu_button_page : page :=
  mk_page
    [ (0, elem "html" [] [] [CElem 1]);
      (1, elem "nav" [("id", "nav-links")] ["open"] [CElem 2]);
      (2, elem "a" [("href", "index.html")] [] [CText "Home"]) ]
    [].

(** A store left with values the script does not know. *)
Definition stale_store_page : page :=
  mk_page demo_nodes [("site-lang", "fr"); ("site-theme", "blue")].

(** ** Notions used in the statements and proofs *)

(** An update that only replaces child lists. *)
Definition kids_only (f : element → element) : Prop :=
  ∀ e, ∃ k, f e = with_kids k e.

(** [forEach] over a node list whose body is one update of the element. *)
Definition update_all (f : element → element) (l : list nid) (p : page) : page :=
  foldl (λ q el, update_node el f q) p l.


(** What the loops of [applyLanguage] and [applyTheme] do to one element. *)
Definition translated (lang : string) (e : element) : element :=
  match decide (lang = "ml"), attrs e !! "data-ml" with
  | left _, Some m => with_kids (text_children m) e
  | _, _ =>
      match attrs e !! "data-en" with
      | Some s => with_kids (text_children s) e
      | None => e
      end
  end.

Definition labelled (lang : string) : element → element :=
  with_kids (text_children (lang_label lang)).

Definition theme_icon (v : variant) (theme : string) : list child :=
  match v with
  | ScriptJs => markup_children (if decide (theme = "dark") then SUN_SVG else MOON_SVG)
  | Part000 => text_children (if decide (theme = "dark") then "☀️" else "🌙")
  end.

(** The element is one of the language buttons. *)
Definition is_lang_toggle (p : page) (n : nid) : Prop :=
  getAttribute p n "id" = Some "lang-toggle" ∨ getAttribute p n "id" = Some "lang-toggle-2".

(** [branch h n l x]: [l] lists the elements on the way from [n] down to its
    descendant [x], both included. *)
Inductive branch (h : gmap nid element) : nid → list nid → nid → Prop :=
| branch_here n e : h !! n = Some e → branch h n [n] n
| branch_step n e m l x :
    h !! n = Some e → CElem m ∈ kids e → branch h m l x → branch h n (n :: l) x.

(** In a tree no element occurs twice on a branch. *)
Definition acyclic (h : gmap nid element) : Prop :=
  ∀ n l x, branch h n l x → NoDup l.

(** In a tree every element has at most one parent. *)
Definition one_parent (h : gmap nid element) : Prop :=
  ∀ n n' e e' m,
    h !! n = Some e → CElem m ∈ kids e →
    h !! n' = Some e' → CElem m ∈ kids e' → n = n'.

(** The element children of an element, in order. *)
Definition elem_children (e : element) : list nid :=
  omap (λ c, match c with CElem m => Some m | _ => None end) (kids e).

(** Every element of the document that [applyLanguage] writes to, those
    with [data-en] and the language buttons, has no element below it.
    This is the state [applyLanguage] leaves a page in. *)
Definition flat_targets (p : page) : Prop :=
  ∀ m e,
    m ∈ subtree (nodes p) (documentElement p) →
    nodes p !! m = Some e →
    is_Some (attrs e !! "data-en") ∨ matches lang_toggles e = true →
    elem_children e = [].
(** Closed decidable facts about the concrete pages, by evaluation. *)
Ltac by_compute := refine (bool_decide_unpack _ _); vm_compute; exact I.

(** ** The model at work on the demonstration page *)

Example demo_tree_order :
  subtree (nodes demo_page) 0
  = [0; 1; 2; 3; 4; 5; 6; 7; 8; 9; 10; 11; 13; 12; 20; 21; 22; 14; 15; 17; 18].
Proof. by vm_compute. Qed.

Example demo_translatable :
  querySelectorAll (SelAttr "data-en") demo_page = [4; 5; 13; 14].
Proof. by vm_compute. Qed.

Example demo_load :
  let q := onDOMContentLoaded ScriptJs demo_env demo_page in
  clickListeners q
  = [(2, MenuToggleClick 2 3); (4, NavLinkClick 3); (5, NavLinkClick 3);
     (11, AccordionClick 10 11 12); (21, AccordionClick 20 21 22);
     (7, LangToggleClick); (8, ThemeToggleClick)]
  ∧ observed q = [14]
  ∧ textContent q 18 = "2025"
  ∧ textContent q 7 = "EN"
  ∧ childNodes q 8 = [CMarkup SUN_SVG]
  ∧ getAttribute q 0 "data-theme" = Some "dark"
  ∧ localStorage_getItem LS_LANG q = Some "en"
  ∧ localStorage_getItem LS_THEME q = Some "dark".
Proof. by vm_compute. Qed.

Example demo_load_older_copy :
  let q := onDOMContentLoaded Part000 demo_env demo_page in
  childNodes q 8 = [CText "🌙"]
  ∧ getAttribute q 0 "data-theme" = Some "light"
  ∧ localStorage_getItem LS_THEME q = Some "light".
Proof. by vm_compute. Qed.

Example demo_language_button :
  let q := onDOMContentLoaded ScriptJs demo_env demo_page in
  let q1 := click_on ScriptJs demo_env 7 q in
  let q2 := click_on ScriptJs demo_env 7 q1 in
  textContent q1 14 = "സ്വാഗതം" ∧ textContent q1 5 = "Services"
  ∧ textContent q1 7 = "ML" ∧ localStorage_getItem LS_LANG q1 = Some "ml"
  ∧ textContent q2 14 = "Welcome" ∧ textContent q2 7 = "EN"
  ∧ localStorage_getItem LS_LANG q2 = Some "en".
Proof. by vm_compute. Qed.

Example demo_theme_button :
  let q := onDOMContentLoaded ScriptJs demo_env demo_page in
  let q1 := click_on ScriptJs demo_env 8 q in
  getAttribute q1 0 "data-theme" = Some "light"
  ∧ childNodes q1 8 = [CMarkup MOON_SVG]
  ∧ localStorage_getItem LS_THEME q1 = Some "light".
Proof. by vm_compute. Qed.

Example demo_accordion_and_menu :
  let q := onDOMContentLoaded ScriptJs demo_env demo_page in
  let q1 := click_on ScriptJs demo_env 11 q in
  let q2 := click_on ScriptJs demo_env 2 q1 in
  let q3 := click_on ScriptJs demo_env 2 q2 in
  let q4 := click_on ScriptJs demo_env 5 q3 in
  classes q1 10 = ["accordion-item"; "open"]
  ∧ style_maxHeight q1 12 = Some "120px"
  ∧ classes q1 20 = ["accordion-item"]
  ∧ classes q2 3 = [] ∧ getAttribute q2 2 "aria-expanded" = Some "false"
  ∧ classes q3 3 = ["open"] ∧ getAttribute q3 2 "aria-expanded" = Some "true"
  ∧ classes q4 3 = [].
Proof. by vm_compute. Qed.

(** ** Heap updates *)

Lemma size_alter_nodes (f : element → element) (n : nid) (h : gmap nid element) :
  size (alter f n h) = size h.
Proof.
  rewrite <- !(size_dom (D := gset nid)). by rewrite dom_alter_L.
Qed.

Lemma lookup_update_node n f p m :
  nodes (update_node n f p) !! m
  = if decide (n = m) then f <$> nodes p !! m else nodes p !! m.
Proof.
  simpl. rewrite fin_maps.lookup_alter. by destruct (decide (n = m)) as [->|].
Qed.

Lemma update_node_id n f p :
  (∀ e, nodes p !! n = Some e → f e = e) → update_node n f p = p.
Proof.
  intros Hf. destruct p as [h r st ls ob]. unfold update_node. simpl in *.
  f_equal. by apply fin_maps.alter_id.
Qed.

Lemma with_kids_same e : with_kids (kids e) e = e.
Proof. by destruct e. Qed.

Lemma matches_with_kids sel k e : matches sel (with_kids k e) = matches sel e.
Proof. by destruct sel. Qed.

Lemma kids_only_with_kids k : kids_only (with_kids k).
Proof. intros e. by exists k. Qed.

Lemma kids_only_matches f sel e : kids_only f → matches sel (f e) = matches sel e.
Proof. intros Hf. destruct (Hf e) as [k ->]. apply matches_with_kids. Qed.

(** The loops of the script: one update [f] applied to every element of a
    node list. *)
Section update_all.
Context (f : element → element).

Lemma update_all_cons n l p :
  update_all f (n :: l) p = update_all f l (update_node n f p).
Proof. reflexivity. Qed.

Lemma update_all_rest l p :
  documentElement (update_all f l p) = documentElement p
  ∧ localStorage (update_all f l p) = localStorage p
  ∧ clickListeners (update_all f l p) = clickListeners p
  ∧ observed (update_all f l p) = observed p
  ∧ size (nodes (update_all f l p)) = size (nodes p).
Proof.
  revert p. induction l as [|n l IH]; intros p; [done|].
  rewrite update_all_cons.
  destruct (IH (update_node n f p)) as (-> & -> & -> & -> & ->).
  simpl. by rewrite size_alter_nodes.
Qed.

Lemma update_all_id l p :
  (∀ n e, n ∈ l → nodes p !! n = Some e → f e = e) → update_all f l p = p.
Proof.
  induction l as [|n l IH]; intros Hf; [done|].
  rewrite update_all_cons, update_node_id.
  - apply IH. intros m e Hm. apply Hf. by apply list_elem_of_further.
  - intros e. apply Hf. apply list_elem_of_here.
Qed.

(** An element of the list is updated, once is as good as several times
    when [f] is idempotent, and every other element is left alone. *)
Lemma lookup_update_all l p m :
  (∀ e, f (f e) = f e) →
  nodes (update_all f l p) !! m
  = if decide (m ∈ l) then f <$> nodes p !! m else nodes p !! m.
Proof.
  intros Hidem. revert p. induction l as [|n l IH]; intros p.
  { by rewrite decide_False by apply not_elem_of_nil. }
  rewrite update_all_cons, IH, lookup_update_node.
  destruct (decide (n = m)) as [->|Hne].
  - rewrite (decide_True (P := m ∈ m :: l)) by apply list_elem_of_here.
    destruct (decide (m ∈ l)); [|done].
    destruct (nodes p !! m); simpl; [|done]. by rewrite Hidem.
  - destruct (decide (m ∈ l)) as [Hin|Hnin].
    + by rewrite decide_True by by apply list_elem_of_further.
    + rewrite decide_False; [done|].
      intros [?|?]%elem_of_cons; congruence.
Qed.

(** Replacing child lists does not change what a selector matches. *)
Lemma update_all_matches l p sel m :
  kids_only f →
  node_matches sel (nodes (update_all f l p)) m = node_matches sel (nodes p) m.
Proof.
  intros Hf. revert p. induction l as [|n l IH]; intros p; [done|].
  rewrite update_all_cons, IH. unfold node_matches.
  rewrite lookup_update_node. destruct (decide (n = m)); [|done].
  destruct (nodes p !! m); simpl; [|done]. by apply kids_only_matches.
Qed.
End update_all.

(** What a selection returns satisfies the selector. *)
Lemma elem_of_select sel h l n :
  n ∈ select sel h l ↔ node_matches sel h n = true ∧ n ∈ l.
Proof.
  unfold select. rewrite list_elem_of_filter.
  split; intros [H ?]; split; try done.
  - by apply Is_true_true.
  - by apply Is_true_true.
Qed.

Lemma querySelectorAll_matches sel p n :
  n ∈ querySelectorAll sel p → node_matches sel (nodes p) n = true.
Proof. unfold querySelectorAll. rewrite elem_of_select. tauto. Qed.

Lemma node_matches_is_Some sel h n :
  node_matches sel h n = true → is_Some (h !! n).
Proof. unfold node_matches. destruct (h !! n); [eauto|done]. Qed.

Lemma update_node_ext n f g p :
  (∀ e, nodes p !! n = Some e → f e = g e) → update_node n f p = update_node n g p.
Proof.
  intros Hfg. unfold update_node. f_equal.
  apply map_eq. intros m. rewrite !fin_maps.lookup_alter.
  destruct (decide (n = m)) as [->|]; [|done].
  destruct (nodes p !! m) eqn:Hm; simpl; [|done]. by rewrite Hfg.
Qed.

(** ** The text of an element *)

Lemma text_of_text_children f h n e s :
  h !! n = Some e → kids e = text_children s → text_of (S f) h n = s.
Proof.
  intros Hn Hk. simpl. rewrite Hn, Hk. unfold text_children.
  destruct (decide (s = "")) as [->|]; [done|]. simpl.
  reflexivity.
Qed.

Lemma textContent_text_children p n e s :
  nodes p !! n = Some e → kids e = text_children s → textContent p n = s.
Proof.
  intros Hn Hk. unfold textContent.
  destruct (size (nodes p)) as [|f] eqn:Hsz.
  - apply map_size_empty_inv in Hsz. rewrite Hsz in Hn. by rewrite lookup_empty in Hn.
  - by eapply text_of_text_children.
Qed.

Lemma elem_of_tree_order_kid f h n e m x :
  h !! n = Some e → CElem m ∈ kids e → x ∈ tree_order f h m → x ∈ tree_order (S f) h n.
Proof.
  intros Hn Hm Hx. simpl. rewrite Hn. apply list_elem_of_further.
  apply list_elem_of_In, in_flat_map. exists (CElem m).
  split; by apply list_elem_of_In.
Qed.

Lemma elem_of_tree_order_inv f h n x :
  x ∈ tree_order (S f) h n →
  ∃ e, h !! n = Some e ∧ (x = n ∨ ∃ m, CElem m ∈ kids e ∧ x ∈ tree_order f h m).
Proof.
  simpl. destruct (h !! n) as [e|]; [|by intros ?%not_elem_of_nil].
  intros [->|Hx]%elem_of_cons; exists e; split; auto.
  apply list_elem_of_In, in_flat_map in Hx as (c & Hc & Hx).
  destruct c as [|m|]; try done.
  right. exists m. split; by apply list_elem_of_In.
Qed.

(** The text of an element depends only on the elements below it. *)
Lemma text_of_ext f h h' n :
  (∀ m, h !! m = None → h' !! m = None) →
  (∀ m, m ∈ tree_order f h n → h' !! m = h !! m) →
  text_of f h' n = text_of f h n.
Proof.
  intros Hdom. revert n. induction f as [|f IH]; intros n Hsame; [done|].
  simpl. destruct (h !! n) as [e|] eqn:Hn.
  - rewrite (Hsame n), Hn by (simpl; rewrite Hn; apply list_elem_of_here).
    f_equal. apply map_ext_in. intros [s|m|s] Hc; try done.
    apply IH. intros x Hx. apply Hsame.
    eapply elem_of_tree_order_kid; [done| |done]. by apply list_elem_of_In.
  - by rewrite (Hdom n Hn).
Qed.

(** ** Language *)

Lemma translated_kids_only lang : kids_only (translated lang).
Proof.
  intros e. unfold translated.
  destruct (decide (lang = "ml")), (attrs e !! "data-ml"), (attrs e !! "data-en");
    eauto using with_kids_same.
Qed.

Lemma translated_idem lang e : translated lang (translated lang e) = translated lang e.
Proof.
  unfold translated.
  destruct (decide (lang = "ml")), (attrs e !! "data-ml") eqn:Hml,
    (attrs e !! "data-en") eqn:Hen; simpl; rewrite ?Hml, ?Hen; done.
Qed.

Lemma translate_update lang q el :
  translate lang q el = update_node el (translated lang) q.
Proof.
  unfold translate, getAttribute.
  destruct (nodes q !! el) as [e|] eqn:Hel; simpl.
  - unfold set_textContent.
    destruct (decide (lang = "ml")), (attrs e !! "data-ml") eqn:Hml,
      (attrs e !! "data-en") eqn:Hen;
      try (apply update_node_ext; intros e' He'; assert (e' = e) as -> by congruence;
           unfold translated; rewrite ?Hml, ?Hen;
           by repeat (case_decide; try done));
      (symmetry; apply update_node_id; intros e' He'; assert (e' = e) as -> by congruence;
       unfold translated; rewrite ?Hml, ?Hen; by repeat (case_decide; try done)).
  - destruct (decide (lang = "ml")); symmetry; apply update_node_id; intros e0; congruence.
Qed.

Lemma foldl_translate lang l p :
  foldl (translate lang) p l = update_all (translated lang) l p.
Proof.
  revert p. induction l as [|n l IH]; intros p; [done|].
  simpl. rewrite IH, translate_update. reflexivity.
Qed.

Lemma node_matches_lang_toggles p n :
  node_matches lang_toggles (nodes p) n = true ↔ is_lang_toggle p n.
Proof.
  unfold node_matches, is_lang_toggle, getAttribute, lang_toggles.
  destruct (nodes p !! n) as [e|]; simpl.
  - destruct (attrs e !! "id") as [i|]; simpl.
    + rewrite bool_decide_eq_true, !elem_of_cons, elem_of_nil.
      split; [intros [->|[->|[]]]; auto|intros [?|?]; simplify_eq; auto].
    + split; [done|intros [?|?]; done].
  - split; [done|intros [?|?]; done].
Qed.

Lemma node_matches_attr p n k :
  node_matches (SelAttr k) (nodes p) n = true ↔ is_Some (getAttribute p n k).
Proof.
  unfold node_matches, getAttribute.
  destruct (nodes p !! n) as [e|]; simpl.
  - by rewrite bool_decide_eq_true.
  - split; [done|by intros [? ?]].
Qed.

Lemma foldl_label lang l p :
  foldl (λ q btn, set_textContent btn (lang_label lang) q) p l
  = update_all (labelled lang) l p.
Proof. reflexivity. Qed.

Lemma labelled_idem lang e : labelled lang (labelled lang e) = labelled lang e.
Proof. reflexivity. Qed.

(** The heap after [applyLanguage], element by element. *)
Lemma applyLanguage_lookup lang p m :
  let l1 := querySelectorAll (SelAttr "data-en") p in
  let p1 := update_all (translated lang) l1 p in
  nodes (applyLanguage lang p) !! m
  = if decide (m ∈ querySelectorAll lang_toggles p1)
    then labelled lang <$> nodes p !! m
    else if decide (m ∈ l1) then translated lang <$> nodes p !! m
         else nodes p !! m.
Proof.
  intros l1 p1. unfold applyLanguage. simpl.
  rewrite foldl_translate, foldl_label. fold l1. fold p1.
  rewrite lookup_update_all by apply labelled_idem.
  assert (nodes p1 !! m = if decide (m ∈ l1) then translated lang <$> nodes p !! m
                          else nodes p !! m) as ->
    by apply lookup_update_all, translated_idem.
  destruct (decide (m ∈ querySelectorAll lang_toggles p1)) as [_|_]; [|done].
  destruct (decide (m ∈ l1)) as [_|_]; [|done].
  destruct (nodes p !! m) as [e|]; simpl; [|done].
  destruct (translated_kids_only lang e) as [k ->]. done.
Qed.

Lemma applyLanguage_toggle lang p m :
  m ∈ querySelectorAll lang_toggles
        (update_all (translated lang) (querySelectorAll (SelAttr "data-en") p) p) →
  is_lang_toggle p m.
Proof.
  intros Hm%querySelectorAll_matches.
  rewrite update_all_matches in Hm by apply translated_kids_only.
  by apply node_matches_lang_toggles.
Qed.

Lemma applyLanguage_size lang p :
  size (nodes (applyLanguage lang p)) = size (nodes p).
Proof.
  unfold applyLanguage. simpl. rewrite foldl_translate, foldl_label.
  destruct (update_all_rest (labelled lang)
              (querySelectorAll lang_toggles
                 (update_all (translated lang) (querySelectorAll (SelAttr "data-en") p) p))
              (update_all (translated lang) (querySelectorAll (SelAttr "data-en") p) p))
    as (_ & _ & _ & _ & ->).
  by destruct (update_all_rest (translated lang) (querySelectorAll (SelAttr "data-en") p) p)
    as (_ & _ & _ & _ & ->).
Qed.

Lemma applyLanguage_translated lang p el e :
  el ∈ querySelectorAll (SelAttr "data-en") p →
  ¬ is_lang_toggle p el →
  nodes p !! el = Some e →
  nodes (applyLanguage lang p) !! el = Some (translated lang e).
Proof.
  intros Hel Hnt He. rewrite applyLanguage_lookup.
  rewrite decide_False by (intros ?%applyLanguage_toggle; done).
  rewrite decide_True by done. by rewrite He.
Qed.

Lemma applyLanguage_keeps lang p el :
  getAttribute p el "data-en" = None →
  ¬ is_lang_toggle p el →
  nodes (applyLanguage lang p) !! el = nodes p !! el.
Proof.
  intros Hen Hnt. rewrite applyLanguage_lookup.
  rewrite decide_False by (intros ?%applyLanguage_toggle; done).
  rewrite decide_False; [done|].
  intros Hel%querySelectorAll_matches%node_matches_attr.
  rewrite Hen in Hel. by destruct Hel.
Qed.

Lemma applyLanguage_dom lang p m :
  nodes p !! m = None → nodes (applyLanguage lang p) !! m = None.
Proof.
  intros Hm. rewrite applyLanguage_lookup.
  repeat case_decide; by rewrite Hm.
Qed.

(** C1, as amended: for every element of the document that carries
    [data-en] and is not one of the language buttons, [applyLanguage "ml"]
    leaves its text equal to its [data-ml] value when it has one and to its
    [data-en] value otherwise, and [applyLanguage "en"] leaves its text
    equal to its [data-en] value. *)
Theorem applyLanguage_text p el en :
  el ∈ querySelectorAll (SelAttr "data-en") p →
  getAttribute p el "data-en" = Some en →
  ¬ is_lang_toggle p el →
  (∀ ml, getAttribute p el "data-ml" = Some ml →
         textContent (applyLanguage "ml" p) el = ml)
  ∧ (getAttribute p el "data-ml" = None → textContent (applyLanguage "ml" p) el = en)
  ∧ textContent (applyLanguage "en" p) el = en.
Proof.
  intros Hel Hen Hnt. unfold getAttribute in *.
  destruct (nodes p !! el) as [e|] eqn:He; simpl in *; [|done].
  pose proof (λ lang, applyLanguage_translated lang p el e Hel Hnt He) as Hafter.
  split; [|split].
  - intros ml Hml. eapply textContent_text_children; [apply Hafter|].
    unfold translated. by rewrite Hml.
  - intros Hml. eapply textContent_text_children; [apply Hafter|].
    unfold translated. by rewrite Hml, Hen.
  - eapply textContent_text_children; [apply Hafter|].
    unfold translated. simpl. by rewrite Hen.
Qed.

Lemma applyLanguage_text_witness :
  textContent (applyLanguage "ml" demo_page) 4 = "ഹോം"
  ∧ textContent (applyLanguage "ml" demo_page) 5 = "Services"
  ∧ textContent (applyLanguage "en" demo_page) 4 = "Home".
Proof.
  destruct (applyLanguage_text demo_page 4 "Home") as (Hml & _ & Hen).
  { by_compute. }
  { by vm_compute. }
  { intros [H|H]; vm_compute in H; discriminate. }
  destruct (applyLanguage_text demo_page 5 "Services") as (_ & Hno & _).
  { by_compute. }
  { by vm_compute. }
  { intros [H|H]; vm_compute in H; discriminate. }
  split; [|split].
  - apply Hml. by vm_compute.
  - apply Hno. by vm_compute.
  - exact Hen.
Defined.

(** C1 as stated fails for a language button that carries the two text
    attributes: the second loop of [applyLanguage] overwrites its text with
    the short code. *)
Lemma applyLanguage_toggle_label :
  querySelectorAll (SelAttr "data-en") labelled_toggle_page = [1]
  ∧ getAttribute labelled_toggle_page 1 "data-en" = Some "Language"
  ∧ getAttribute labelled_toggle_page 1 "data-ml" = Some "ഭാഷ"
  ∧ textContent (applyLanguage "ml" labelled_toggle_page) 1 = "ML"
  ∧ textContent (applyLanguage "ml" labelled_toggle_page) 1 ≠ "ഭാഷ"
  ∧ textContent (applyLanguage "en" labelled_toggle_page) 1 = "EN"
  ∧ textContent (applyLanguage "en" labelled_toggle_page) 1 ≠ "Language".
Proof. vm_compute. repeat split; done. Qed.

(** C10, as amended: [applyLanguage] assigns text only to the elements that
    carry [data-en] and to the language buttons.  An element without
    [data-en] that is not a language button keeps its attributes, classes
    and child nodes, whatever the language code and also when it carries
    [data-ml]; its text is unchanged when the same holds for every element
    below it. *)
Theorem applyLanguage_untouched lang p el :
  getAttribute p el "data-en" = None →
  ¬ is_lang_toggle p el →
  nodes (applyLanguage lang p) !! el = nodes p !! el
  ∧ ((∀ m, m ∈ subtree (nodes p) el →
           getAttribute p m "data-en" = None ∧ ¬ is_lang_toggle p m) →
     textContent (applyLanguage lang p) el = textContent p el).
Proof.
  intros Hen Hnt. split; [by apply applyLanguage_keeps|].
  intros Hbelow. unfold textContent. rewrite applyLanguage_size.
  apply text_of_ext.
  - intros m. apply applyLanguage_dom.
  - intros m Hm. destruct (Hbelow m Hm). by apply applyLanguage_keeps.
Qed.

Lemma applyLanguage_untouched_witness :
  getAttribute demo_page 15 "data-ml" = Some "നന്ദി"
  ∧ textContent (applyLanguage "ml" demo_page) 15 = "Thank you".
Proof.
  split; [by vm_compute|].
  destruct (applyLanguage_untouched "ml" demo_page 15) as [_ Htext].
  { by vm_compute. }
  { intros [H|H]; vm_compute in H; discriminate. }
  rewrite Htext; [by vm_compute|].
  intros m Hm. apply list_elem_of_In in Hm. vm_compute in Hm.
  destruct Hm as [<-|[]]. split; [by vm_compute|].
  intros [H|H]; vm_compute in H; discriminate.
Defined.

(** C10 as stated fails on an ordinary page: the language button has no
    [data-en] and its text is rewritten, and the text of an element that
    contains a translated element changes with it. *)
Lemma applyLanguage_changes_untranslated :
  getAttribute demo_page 7 "data-en" = None
  ∧ textContent demo_page 7 = "EN"
  ∧ textContent (applyLanguage "ml" demo_page) 7 = "ML"
  ∧ textContent (applyLanguage "ml" demo_page) 7 ≠ textContent demo_page 7
  ∧ getAttribute demo_page 3 "data-en" = None
  ∧ textContent demo_page 3 = "HomeServices"
  ∧ textContent (applyLanguage "ml" demo_page) 3 = "ഹോംServices"
  ∧ textContent (applyLanguage "ml" demo_page) 3 ≠ textContent demo_page 3.
Proof. vm_compute. repeat split; done. Qed.

(** ** Theme *)

Lemma foldl_show_theme v theme l p :
  foldl (show_theme v theme) p l = update_all (with_kids (theme_icon v theme)) l p.
Proof. by destruct v. Qed.

Lemma theme_icon_no_element v theme m : CElem m ∉ theme_icon v theme.
Proof.
  destruct v; simpl; unfold markup_children, text_children;
    case_decide; intros Hin; inversion Hin as [|? ? ? Hin']; inversion Hin'.
Qed.

Lemma lookup_setAttribute n k a p m :
  nodes (setAttribute n k a p) !! m
  = if decide (n = m) then with_attrs <[k := a]> <$> nodes p !! m else nodes p !! m.
Proof. apply lookup_update_node. Qed.

Lemma applyTheme_lookup v theme p m :
  let p1 := setAttribute (documentElement p) "data-theme" (theme_attr theme) p in
  nodes (applyTheme v theme p) !! m
  = if decide (m ∈ querySelectorAll theme_toggles p1)
    then with_kids (theme_icon v theme) <$> nodes p1 !! m
    else nodes p1 !! m.
Proof.
  intros p1. unfold applyTheme. simpl. rewrite foldl_show_theme.
  fold p1. by rewrite lookup_update_all.
Qed.

Lemma applyTheme_documentElement v theme p :
  documentElement (applyTheme v theme p) = documentElement p.
Proof.
  unfold applyTheme. simpl. rewrite foldl_show_theme.
  by destruct (update_all_rest (with_kids (theme_icon v theme))
                 (querySelectorAll theme_toggles
                    (setAttribute (documentElement p) "data-theme" (theme_attr theme) p))
                 (setAttribute (documentElement p) "data-theme" (theme_attr theme) p))
    as (-> & _).
Qed.

Lemma applyTheme_getAttribute v theme p :
  is_Some (nodes p !! documentElement p) →
  getAttribute (applyTheme v theme p) (documentElement p) "data-theme"
  = Some (theme_attr theme).
Proof.
  intros [e He]. unfold getAttribute. rewrite applyTheme_lookup.
  cbv zeta. rewrite !lookup_setAttribute, He.
  destruct (decide (documentElement p = documentElement p)) as [_|]; [|done].
  case_decide; simpl; apply lookup_insert_eq.
Qed.

Lemma applyTheme_stored v theme p :
  localStorage (applyTheme v theme p) !! LS_THEME = Some theme.
Proof. unfold applyTheme. simpl. apply lookup_insert_eq. Qed.

Lemma applyLanguage_stored lang p :
  localStorage (applyLanguage lang p) !! LS_LANG = Some lang.
Proof. unfold applyLanguage. simpl. apply lookup_insert_eq. Qed.

(** C3: after [applyLanguage L] the stored language preference reads [L],
    and after [applyTheme M] the stored theme preference reads [M]. *)
Theorem preference_round_trip (v : variant) (L M : string) (p : page) :
  localStorage_getItem LS_LANG (applyLanguage L p) = Some L
  ∧ localStorage_getItem LS_THEME (applyTheme v M p) = Some M.
Proof.
  split; [apply applyLanguage_stored|apply applyTheme_stored].
Qed.

(** C9: for a mode that is not ["dark"] the attribute of the document is
    set to ["light"] and the store receives the mode as given, so the two
    differ for every mode other than ["dark"] and ["light"]. *)
Theorem applyTheme_attribute_not_stored (v : variant) (M : string) (p : page) :
  is_Some (nodes p !! documentElement p) →
  M ≠ "dark" →
  let q := applyTheme v M p in
  getAttribute q (documentElement q) "data-theme" = Some "light"
  ∧ localStorage_getItem LS_THEME q = Some M
  ∧ (M ≠ "light" →
     getAttribute q (documentElement q) "data-theme" ≠ localStorage_getItem LS_THEME q).
Proof.
  intros Hroot HM q. subst q. rewrite applyTheme_documentElement.
  rewrite applyTheme_getAttribute by done.
  unfold localStorage_getItem. rewrite applyTheme_stored.
  unfold theme_attr. rewrite decide_False by done.
  repeat split. intros HM'. congruence.
Qed.

Lemma applyTheme_attribute_not_stored_witness :
  getAttribute (applyTheme ScriptJs "blue" demo_page) 0 "data-theme" = Some "light"
  ∧ localStorage_getItem LS_THEME (applyTheme ScriptJs "blue" demo_page) = Some "blue".
Proof.
  destruct (applyTheme_attribute_not_stored ScriptJs "blue" demo_page) as (Ha & Hs & _).
  { by_compute. }
  { done. }
  split; [exact Ha|exact Hs].
Defined.

(** Removing children from elements can only shrink the tree. *)
Lemma tree_order_mono f h h' n x :
  (∀ m e', h' !! m = Some e' →
           ∃ e, h !! m = Some e ∧ ∀ c, CElem c ∈ kids e' → CElem c ∈ kids e) →
  x ∈ tree_order f h' n → x ∈ tree_order f h n.
Proof.
  intros Hsub. revert n. induction f as [|f IH]; intros n; [done|].
  intros (e' & He' & Hx)%elem_of_tree_order_inv.
  destruct (Hsub n e' He') as (e & He & Hkids).
  destruct Hx as [->|(m & Hm & Hx)].
  - simpl. rewrite He. apply list_elem_of_here.
  - eapply elem_of_tree_order_kid; eauto.
Qed.

Lemma with_attrs_insert_id k a e :
  attrs e !! k = Some a → with_attrs <[k := a]> e = e.
Proof.
  intros Hk. destruct e as [t at' cl mh ks]. unfold with_attrs. simpl in *.
  f_equal. by apply insert_id.
Qed.

Lemma localStorage_setItem_id k a p :
  localStorage p !! k = Some a → localStorage_setItem k a p = p.
Proof.
  intros Hk. destruct p as [h r st ls ob]. unfold localStorage_setItem. simpl in *.
  f_equal. by apply insert_id.
Qed.

(** A page that already shows a theme is left as it is. *)
Lemma applyTheme_fixed v theme q :
  (∀ e, nodes q !! documentElement q = Some e →
        attrs e !! "data-theme" = Some (theme_attr theme)) →
  (∀ n e, n ∈ querySelectorAll theme_toggles q → nodes q !! n = Some e →
          kids e = theme_icon v theme) →
  localStorage q !! LS_THEME = Some theme →
  applyTheme v theme q = q.
Proof.
  intros Hattr Hicon Hstore. unfold applyTheme.
  assert (setAttribute (documentElement q) "data-theme" (theme_attr theme) q = q) as ->.
  { apply update_node_id. intros e He. by apply with_attrs_insert_id, Hattr. }
  rewrite foldl_show_theme, update_all_id.
  - by apply localStorage_setItem_id.
  - intros n e Hn He. rewrite <- (Hicon n e Hn He). apply with_kids_same.
Qed.

Lemma applyTheme_subtree v theme p x :
  let p1 := setAttribute (documentElement p) "data-theme" (theme_attr theme) p in
  x ∈ subtree (nodes (applyTheme v theme p)) (documentElement p) →
  x ∈ subtree (nodes p1) (documentElement p).
Proof.
  intros p1. unfold subtree.
  assert (size (nodes (applyTheme v theme p)) = size (nodes p1)) as ->.
  { unfold applyTheme. simpl. rewrite foldl_show_theme. fold p1.
    by destruct (update_all_rest (with_kids (theme_icon v theme))
                   (querySelectorAll theme_toggles p1) p1) as (_ & _ & _ & _ & ->). }
  apply tree_order_mono. intros m e' Hm.
  rewrite applyTheme_lookup in Hm. fold p1 in Hm.
  destruct (decide (m ∈ querySelectorAll theme_toggles p1)) as [_|_]; [|by eauto].
  destruct (nodes p1 !! m) as [e|]; simpl in Hm; [|done].
  exists e. split; [done|]. intros c Hc. simplify_eq. simpl in Hc.
  by apply theme_icon_no_element in Hc.
Qed.

Lemma applyTheme_toggles v theme p n :
  let p1 := setAttribute (documentElement p) "data-theme" (theme_attr theme) p in
  n ∈ querySelectorAll theme_toggles (applyTheme v theme p) →
  n ∈ querySelectorAll theme_toggles p1.
Proof.
  intros p1. unfold querySelectorAll. rewrite !elem_of_select.
  rewrite applyTheme_documentElement.
  intros [Hmatch Hn]. split; [|by apply (applyTheme_subtree v theme p)].
  unfold applyTheme in Hmatch. simpl in Hmatch.
  rewrite foldl_show_theme in Hmatch.
  by rewrite update_all_matches in Hmatch by apply kids_only_with_kids.
Qed.

(** C4: applying a theme a second time changes nothing at all: the
    attribute of the document, the content of every theme button and the
    stored preference are the ones the first call left. *)
Theorem applyTheme_idempotent (v : variant) (M : string) (p : page) :
  applyTheme v M (applyTheme v M p) = applyTheme v M p.
Proof.
  apply applyTheme_fixed.
  - intros e. rewrite applyTheme_documentElement, applyTheme_lookup.
    cbv zeta. rewrite !lookup_setAttribute.
    destruct (decide (documentElement p = documentElement p)) as [_|]; [|done].
    destruct (nodes p !! documentElement p) as [e0|]; simpl.
    + case_decide; intros; simplify_eq; simpl; apply lookup_insert_eq.
    + by case_decide.
  - intros n e Hn%applyTheme_toggles. rewrite applyTheme_lookup.
    rewrite decide_True by done.
    destruct (nodes _ !! n); simpl; intros; by simplify_eq.
  - apply applyTheme_stored.
Qed.

(** ** Accordion *)

(** Unfolds one callback down to lookups in the heap. *)
Ltac heap_unfold :=
  unfold classes, getAttribute, style_maxHeight, set_style_maxHeight, setAttribute,
    classList_add, classList_remove in *;
  simpl; rewrite ?fin_maps.lookup_alter.

Lemma elem_of_token_add c l : c ∈ token_add c l.
Proof.
  unfold token_add. case_decide; [done|].
  apply elem_of_app. right. apply list_elem_of_here.
Qed.

Lemma token_add_keeps c d l : d ∈ l → d ∈ token_add c l.
Proof.
  unfold token_add. case_decide; [done|]. intros. apply elem_of_app. by left.
Qed.

Lemma not_elem_of_token_remove c l : c ∉ token_remove c l.
Proof. unfold token_remove. rewrite list_elem_of_filter. by intros [? _]. Qed.






(** ** Scroll reveal *)

Lemma reveal_keeps q e t :
  "visible" ∈ classes q t → "visible" ∈ classes (reveal q e) t.
Proof.
  unfold reveal. destruct e as [n []]; simpl; [|done].
  heap_unfold. case_decide; subst; [|done].
  destruct (nodes q !! t); simpl; [|done]. apply token_add_keeps.
Qed.

Lemma observer_callback_keeps es p t :
  "visible" ∈ classes p t → "visible" ∈ classes (observer_callback es p) t.
Proof.
  unfold observer_callback. revert p.
  induction es as [|e es IH]; intros p Hp; [done|].
  simpl. by apply IH, reveal_keeps.
Qed.

(** An intersecting entry marks its target. *)
Lemma observer_callback_reveals es p t :
  is_Some (nodes p !! t) → (t, true) ∈ es →
  "visible" ∈ classes (observer_callback es p) t.
Proof.
  unfold observer_callback. revert p.
  induction es as [|e es IH]; intros p Ht Hin; [by apply elem_of_nil in Hin|].
  apply elem_of_cons in Hin as [<-|Hin]; simpl.
  - apply (observer_callback_keeps es). unfold reveal. simpl. heap_unfold.
    rewrite decide_True by done. destruct Ht as [e ->]. simpl.
    apply elem_of_token_add.
  - apply IH; [|done]. unfold reveal. destruct e as [n []]; simpl; [|done].
    rewrite fin_maps.lookup_alter. case_decide; subst; [|done].
    destruct Ht as [e ->]. by eexists.
Qed.

(** C7: an element that carries the [visible] marker still carries it after
    any sequence of notifications delivered to the observer callback,
    whatever the entries report. *)
Theorem reveal_monotonic (batches : list (list (nid * bool))) (p : page) (t : nid) :
  "visible" ∈ classes p t →
  "visible" ∈ classes (foldl (λ q entries, observer_callback entries q) p batches) t.
Proof.
  revert p. induction batches as [|es batches IH]; intros p Hp; [done|].
  simpl. by apply IH, observer_callback_keeps.
Qed.

Lemma reveal_monotonic_witness :
  "visible" ∈ classes
    (foldl (λ q entries, observer_callback entries q)
           (observer_callback [(14, true)] demo_page)
           [[(14, false)]; [(4, true); (14, false)]; [(14, true)]])
    14.
Proof.
  apply (reveal_monotonic _ (observer_callback [(14, true)] demo_page) 14).
  by_compute.
Defined.

(** ** Navigation *)

Lemma clickListeners_add_listeners ls p :
  clickListeners (add_listeners ls p) = (clickListeners p ++ ls)%list.
Proof.
  unfold add_listeners. revert p.
  induction ls as [|[n l] ls IH]; intros p; simpl.
  - by rewrite app_nil_r.
  - rewrite IH. simpl. by rewrite <- app_assoc.
Qed.

Lemma nodes_add_listeners ls p : nodes (add_listeners ls p) = nodes p.
Proof.
  unfold add_listeners. revert p.
  induction ls as [|[n l] ls IH]; intros p; simpl; [done|]. by rewrite IH.
Qed.

Lemma nav_link_click_closed nav q : "open" ∉ classes (nav_link_click nav q) nav.
Proof.
  unfold nav_link_click. heap_unfold. rewrite decide_True by done.
  destruct (nodes q !! nav); simpl.
  - apply not_elem_of_token_remove.
  - apply not_elem_of_nil.
Qed.

(** C8, as amended: when the page has both the [#menu-toggle] button and
    the [#nav-links] container, [setupNavToggle] registers on every link
    inside the container a click callback, and whenever that callback runs
    the container is left without the [open] marker, whether or not it
    carried it. *)
Theorem nav_link_click_closes (p : page) (btn nav a : nid) :
  getElementById "menu-toggle" p = Some btn →
  getElementById "nav-links" p = Some nav →
  a ∈ elem_querySelectorAll (SelTag "a") p nav →
  (a, NavLinkClick nav) ∈ clickListeners (setupNavToggle p)
  ∧ ∀ (v : variant) (E : env) (q : page),
      "open" ∉ classes (run_listener v E (NavLinkClick nav) q) nav.
Proof.
  intros Hbtn Hnav Ha. split.
  - unfold setupNavToggle. rewrite clickListeners_add_listeners.
    apply elem_of_app. right. unfold setupNavToggle_listeners.
    rewrite Hbtn, Hnav. apply list_elem_of_further.
    by apply (list_elem_of_fmap_2 (λ a, (a, NavLinkClick nav))).
  - intros v E q. apply nav_link_click_closed.
Qed.

Lemma nav_link_click_closes_witness :
  (4, NavLinkClick 3) ∈ clickListeners (setupNavToggle demo_page)
  ∧ "open" ∈ classes demo_page 3
  ∧ "open" ∉ classes (run_listener ScriptJs demo_env (NavLinkClick 3) demo_page) 3.
Proof.
  destruct (nav_link_click_closes demo_page 2 3 4) as [Hreg Hrun];
    [by vm_compute|by vm_compute|by_compute|].
  split; [exact Hreg|]. split; [by_compute|apply Hrun].
Defined.

(** C8 as stated fails on a page without the [#menu-toggle] button:
    [setupNavToggle] returns before it reaches the links, no callback is
    registered, and a click on a link leaves the marker in place. *)
Lemma nav_link_without_menu_button :
  getElementById "menu-toggle" no_menu_button_page = None
  ∧ getElementById "nav-links" no_menu_button_page = Some 1
  ∧ elem_querySelectorAll (SelTag "a") no_menu_button_page 1 = [2]
  ∧ clickListeners (setupNavToggle no_menu_button_page) = []
  ∧ clickListeners (onDOMContentLoaded ScriptJs demo_env no_menu_button_page) = []
  ∧ "open" ∈ classes
      (click_on ScriptJs demo_env 2
         (onDOMContentLoaded ScriptJs demo_env no_menu_button_page)) 1.
Proof.
  repeat split; try by vm_compute. by_compute.
Qed.

(** ** Page load *)

Lemma foldl_proj {A B} (R : page → A) (step : page → B → page) l p :
  (∀ q x, R (step q x) = R q) → R (foldl step p l) = R p.
Proof.
  intros Hstep. revert p. induction l as [|x l IH]; intros p; [done|].
  simpl. by rewrite IH.
Qed.

Lemma localStorage_setYear E p : localStorage (setYear E p) = localStorage p.
Proof.
  unfold setYear.
  by destruct (getElementById "year" p), (getElementById "year-2" p).
Qed.

Lemma localStorage_setupObserver p : localStorage (setupObserver p) = localStorage p.
Proof. unfold setupObserver. by apply foldl_proj. Qed.

Lemma localStorage_add_listeners ls p : localStorage (add_listeners ls p) = localStorage p.
Proof. unfold add_listeners. by apply foldl_proj. Qed.

Lemma localStorage_applyLanguage lang p :
  localStorage (applyLanguage lang p) = <[LS_LANG := lang]> (localStorage p).
Proof.
  unfold applyLanguage. simpl. f_equal.
  rewrite foldl_translate, foldl_label.
  unfold update_all. by rewrite !(foldl_proj localStorage).
Qed.

Lemma localStorage_applyTheme v theme p :
  localStorage (applyTheme v theme p) = <[LS_THEME := theme]> (localStorage p).
Proof.
  unfold applyTheme. simpl. f_equal.
  rewrite foldl_show_theme. unfold update_all. by rewrite (foldl_proj localStorage).
Qed.

Lemma localStorage_before_language v E p :
  localStorage (setupAccordion v (setupNavToggle (setupObserver (setYear E p))))
  = localStorage p.
Proof.
  unfold setupAccordion, setupNavToggle.
  by rewrite !localStorage_add_listeners, localStorage_setupObserver,
    localStorage_setYear.
Qed.

(** What page load leaves in the store. *)
Lemma onDOMContentLoaded_store v E p :
  localStorage (onDOMContentLoaded v E p)
  = <[LS_THEME := savedTheme v E p]> (<[LS_LANG := savedLang p]> (localStorage p)).
Proof.
  unfold onDOMContentLoaded. cbv zeta.
  rewrite !(foldl_proj localStorage) by done.
  rewrite localStorage_applyTheme, localStorage_applyLanguage.
  unfold savedTheme, savedLang, localStorage_getItem.
  rewrite localStorage_applyLanguage, !localStorage_before_language.
  by rewrite lookup_insert_ne.
Qed.

Lemma or_else_nonempty s d : s ≠ "" → or_else (Some s) d = s.
Proof. intros. unfold or_else. by rewrite decide_False. Qed.

Lemma is_Some_update_node n f p m :
  is_Some (nodes p !! m) → is_Some (nodes (update_node n f p) !! m).
Proof.
  intros [e He]. rewrite lookup_update_node, He. case_decide; by eexists.
Qed.

Lemma is_Some_setYear E p m :
  is_Some (nodes p !! m) → is_Some (nodes (setYear E p) !! m).
Proof.
  intros Hm. unfold setYear, set_textContent.
  destruct (getElementById "year" p), (getElementById "year-2" p);
    auto using is_Some_update_node.
Qed.

Lemma documentElement_setYear E p : documentElement (setYear E p) = documentElement p.
Proof.
  unfold setYear.
  by destruct (getElementById "year" p), (getElementById "year-2" p).
Qed.

Lemma is_Some_applyLanguage lang p m :
  is_Some (nodes p !! m) → is_Some (nodes (applyLanguage lang p) !! m).
Proof.
  intros [e He]. rewrite applyLanguage_lookup, He. repeat case_decide; by eexists.
Qed.

Lemma documentElement_applyLanguage lang p :
  documentElement (applyLanguage lang p) = documentElement p.
Proof.
  unfold applyLanguage. simpl. rewrite foldl_translate, foldl_label.
  unfold update_all. by rewrite !(foldl_proj documentElement).
Qed.

Lemma nodes_before_language v E p :
  nodes (setupAccordion v (setupNavToggle (setupObserver (setYear E p))))
  = nodes (setYear E p).
Proof.
  unfold setupAccordion, setupNavToggle, setupObserver.
  by rewrite !nodes_add_listeners, (foldl_proj nodes).
Qed.

Lemma documentElement_before_language v E p :
  documentElement (setupAccordion v (setupNavToggle (setupObserver (setYear E p))))
  = documentElement p.
Proof.
  unfold setupAccordion, setupNavToggle, setupObserver, add_listeners.
  by rewrite !(foldl_proj documentElement), documentElement_setYear.
Qed.

(** The theme attribute of the document after page load. *)
Lemma onDOMContentLoaded_theme v E p :
  is_Some (nodes p !! documentElement p) →
  getAttribute (onDOMContentLoaded v E p) (documentElement p) "data-theme"
  = Some (theme_attr (savedTheme v E p)).
Proof.
  intros Hroot. unfold getAttribute, onDOMContentLoaded. cbv zeta.
  rewrite !(foldl_proj nodes) by done.
  set (p4 := setupAccordion v (setupNavToggle (setupObserver (setYear E p)))).
  set (p5 := applyLanguage (savedLang p4) p4).
  assert (savedTheme v E p5 = savedTheme v E p) as ->.
  { unfold savedTheme, localStorage_getItem, p5, p4.
    rewrite localStorage_applyLanguage, localStorage_before_language.
    by rewrite lookup_insert_ne. }
  assert (documentElement p5 = documentElement p) as Hdoc.
  { unfold p5, p4.
    by rewrite documentElement_applyLanguage, documentElement_before_language. }
  rewrite <- Hdoc. apply applyTheme_getAttribute.
  rewrite Hdoc. unfold p5. apply is_Some_applyLanguage.
  unfold p4. rewrite nodes_before_language. by apply is_Some_setYear.
Qed.

(** C2, as amended: page load resolves each preference to the stored value
    whenever that value is a non-empty string, whatever it is, and to the
    fallback when nothing or the empty string is stored; the fallback is
    ["en"] for the language and, for the theme, ["dark"] in [script.js] and
    the ambient colour scheme in the older copy, in both cases one of
    ["dark"] and ["light"].  The resolved values are the ones the load
    applies and writes back to the store. *)
Theorem page_load_preferences (v : variant) (E : env) (p : page) :
  (localStorage_getItem LS_LANG (onDOMContentLoaded v E p) = Some (savedLang p)
   ∧ localStorage_getItem LS_THEME (onDOMContentLoaded v E p) = Some (savedTheme v E p)
   ∧ (is_Some (nodes p !! documentElement p) →
      getAttribute (onDOMContentLoaded v E p) (documentElement p) "data-theme"
      = Some (theme_attr (savedTheme v E p))))
  ∧ (∀ s, localStorage_getItem LS_LANG p = Some s → s ≠ "" → savedLang p = s)
  ∧ (localStorage_getItem LS_LANG p = None ∨ localStorage_getItem LS_LANG p = Some "" →
     savedLang p = "en")
  ∧ (∀ s, localStorage_getItem LS_THEME p = Some s → s ≠ "" → savedTheme v E p = s)
  ∧ (localStorage_getItem LS_THEME p = None ∨ localStorage_getItem LS_THEME p = Some "" →
     savedTheme v E p = default_theme v E)
  ∧ (default_theme v E = "dark" ∨ default_theme v E = "light")
  ∧ default_theme ScriptJs E = "dark".
Proof.
  split; [split; [|split]|].
  - unfold localStorage_getItem. rewrite onDOMContentLoaded_store.
    by rewrite lookup_insert_ne, lookup_insert_eq.
  - unfold localStorage_getItem. rewrite onDOMContentLoaded_store.
    by rewrite lookup_insert_eq.
  - apply onDOMContentLoaded_theme.
  - unfold savedLang, savedTheme, localStorage_getItem.
    repeat split.
    + intros s -> Hs. by apply or_else_nonempty.
    + by intros [->| ->].
    + intros s -> Hs. by apply or_else_nonempty.
    + by intros [->| ->].
    + destruct v; simpl; [by left|]. destruct (prefersDark E); [by left|by right].
Qed.

Lemma page_load_preferences_witness :
  savedLang demo_page = "en"
  ∧ savedTheme ScriptJs demo_env demo_page = "dark"
  ∧ savedTheme Part000 demo_env demo_page = "light"
  ∧ savedLang stale_store_page = "fr".
Proof.
  destruct (page_load_preferences ScriptJs demo_env demo_page)
    as (_ & _ & Hlang & _ & Htheme & _).
  destruct (page_load_preferences Part000 demo_env demo_page)
    as (_ & _ & _ & _ & Htheme' & _).
  destruct (page_load_preferences ScriptJs demo_env stale_store_page)
    as (_ & Hkept & _).
  split; [apply Hlang; by left|].
  split; [rewrite Htheme by (by left); reflexivity|].
  split; [rewrite Htheme' by (by left); reflexivity|].
  apply Hkept; [by vm_compute|done].
Defined.

(** C2 as stated fails for a store that holds other values: they are
    neither replaced by the fallback nor among the supported values, and
    the load writes them back. *)
Lemma page_load_keeps_unknown_values :
  localStorage_getItem LS_THEME stale_store_page = Some "blue"
  ∧ savedTheme ScriptJs demo_env stale_store_page = "blue"
  ∧ savedTheme ScriptJs demo_env stale_store_page ≠ default_theme ScriptJs demo_env
  ∧ (savedTheme ScriptJs demo_env stale_store_page ∉ ["dark"; "light"])
  ∧ savedLang stale_store_page = "fr"
  ∧ (savedLang stale_store_page ∉ ["en"; "ml"])
  ∧ localStorage_getItem LS_THEME (onDOMContentLoaded ScriptJs demo_env stale_store_page)
    = Some "blue"
  ∧ localStorage_getItem LS_LANG (onDOMContentLoaded ScriptJs demo_env stale_store_page)
    = Some "fr"
  ∧ getAttribute (onDOMContentLoaded ScriptJs demo_env stale_store_page) 0 "data-theme"
    = Some "light".
Proof.
  repeat split; try (by vm_compute); by_compute.
Qed.

(** ** The walk over the tree is complete

    [tree_order] is bounded by its fuel.  The two lemmas below say what it
    finds, and the following ones that the fuel [subtree] gives it, the
    number of elements in the heap, is enough in every heap that is a tree:
    the search functions of the model then see every element of the
    document, as the browser's do. *)

Section branches.
Context (h : gmap nid element).

Lemma tree_order_complete n l x f :
  branch h n l x → (length l ≤ f)%nat → x ∈ tree_order f h n.
Proof.
  intros Hb. revert f. induction Hb as [n e Hn|n e m l x Hn Hm Hb IH]; intros f Hf.
  - destruct f as [|f]; simpl in *; [lia|]. rewrite Hn. apply list_elem_of_here.
  - destruct f as [|f]; simpl in Hf; [lia|].
    eapply elem_of_tree_order_kid; eauto. apply IH. lia.
Qed.

Lemma tree_order_sound n x f :
  x ∈ tree_order f h n → ∃ l, branch h n l x ∧ (length l ≤ f)%nat.
Proof.
  revert n. induction f as [|f IH]; intros n; [by intros ?%elem_of_nil|].
  intros (e & He & [->|(m & Hm & Hx)])%elem_of_tree_order_inv.
  - exists [n]. split; [by eapply branch_here|simpl; lia].
  - destruct (IH m Hx) as (l & Hl & Hlen).
    exists (n :: l). split; [by eapply branch_step|simpl; lia].
Qed.

Lemma branch_dom n l x y : branch h n l x → y ∈ l → is_Some (h !! y).
Proof.
  induction 1 as [n e Hn|n e m l x Hn Hm Hb IH].
  - intros ->%list_elem_of_singleton. eauto.
  - intros [->|Hy]%elem_of_cons; eauto.
Qed.

Lemma branch_length n l x : acyclic h → branch h n l x → (length l ≤ size h)%nat.
Proof.
  intros Hacyc Hb.
  rewrite <- (size_list_to_set (C := gset nid) l) by apply (Hacyc n l x Hb).
  rewrite <- (size_dom (D := gset nid)). apply subseteq_size.
  intros y Hy%elem_of_list_to_set. apply elem_of_dom. by eapply branch_dom.
Qed.

Lemma subtree_complete n x :
  acyclic h → x ∈ subtree h n ↔ ∃ l, branch h n l x.
Proof.
  intros Hacyc. unfold subtree. split.
  - intros (l & Hl & _)%tree_order_sound. eauto.
  - intros [l Hl]. eapply tree_order_complete; [done|]. by eapply branch_length.
Qed.

End branches.

(** [querySelectorAll] returns the elements of the document that satisfy
    the selector. *)
Lemma querySelectorAll_spec sel p n :
  acyclic (nodes p) →
  n ∈ querySelectorAll sel p
  ↔ (∃ l, branch (nodes p) (documentElement p) l n)
    ∧ ∃ e, nodes p !! n = Some e ∧ matches sel e = true.
Proof.
  intros Hacyc. unfold querySelectorAll.
  rewrite elem_of_select, subtree_complete by done.
  unfold node_matches. split.
  - intros [Hm Hb]. split; [done|].
    destruct (nodes p !! n) as [e|]; [eauto|done].
  - intros [Hb (e & -> & Hm)]. done.
Qed.

(** ** What [setupAccordion] registers *)

Lemma elem_querySelector_Some sel p el n :
  elem_querySelector sel p el = Some n →
  n ∈ tail (subtree (nodes p) el) ∧ node_matches sel (nodes p) n = true.
Proof.
  unfold elem_querySelector, elem_querySelectorAll.
  intros Hn%head_Some_elem_of%elem_of_select. tauto.
Qed.

Lemma accordion_listeners_spec p container b l :
  (b, l) ∈ accordion_listeners p container →
  ∃ item panel,
    l = AccordionClick item b panel
    ∧ item ∈ elem_querySelectorAll (SelClass "accordion-item") p container
    ∧ elem_querySelector (SelClass "accordion-header") p item = Some b
    ∧ elem_querySelector (SelClass "accordion-panel") p item = Some panel
    ∧ is_Some (nodes p !! item) ∧ is_Some (nodes p !! b) ∧ is_Some (nodes p !! panel).
Proof.
  unfold accordion_listeners. intros (item & Hitem & Hl)%list_elem_of_omap.
  destruct (elem_querySelector (SelClass "accordion-header") p item) as [btn|] eqn:Hb;
    [|done].
  destruct (elem_querySelector (SelClass "accordion-panel") p item) as [panel|] eqn:Hp;
    [|done].
  simplify_eq. exists item, panel. repeat split; try done.
  - apply elem_of_select in Hitem as [Hm _]. by eapply node_matches_is_Some.
  - apply elem_querySelector_Some in Hb as [_ Hm]. by eapply node_matches_is_Some.
  - apply elem_querySelector_Some in Hp as [_ Hm]. by eapply node_matches_is_Some.
Qed.

(** Every callback [setupAccordion] registers belongs to an item that has a
    header and a panel, and is registered on that header. *)
Lemma setupAccordion_listeners_spec v p b l :
  (b, l) ∈ setupAccordion_listeners v p →
  ∃ item panel,
    l = AccordionClick item b panel
    ∧ elem_querySelector (SelClass "accordion-header") p item = Some b
    ∧ elem_querySelector (SelClass "accordion-panel") p item = Some panel
    ∧ is_Some (nodes p !! item) ∧ is_Some (nodes p !! b) ∧ is_Some (nodes p !! panel).
Proof.
  intros Hin.
  assert (∃ container, (b, l) ∈ accordion_listeners p container) as [c Hc].
  { unfold setupAccordion_listeners in Hin. destruct v.
    - apply list_elem_of_In, in_flat_map in Hin as (c & _ & Hc).
      exists c. by apply list_elem_of_In.
    - destruct (getElementById "services-accordion" p) as [c|]; [eauto|].
      by apply elem_of_nil in Hin. }
  apply accordion_listeners_spec in Hc
    as (item & panel & -> & _ & Hb & Hp & Hi & Hbe & Hpe).
  exists item, panel. done.
Qed.

(** A heap whose child edges all go to larger identities is a tree; the
    demonstration page is one. *)
Lemma branch_increasing h n l x :
  (∀ n e m, h !! n = Some e → CElem m ∈ kids e → n < m) →
  branch h n l x → ∃ l', l = n :: l' ∧ Forall (λ y, n < y) l' ∧ NoDup l.
Proof.
  intros Hup. induction 1 as [n e Hn|n e m l x Hn Hm Hb IH].
  - exists []. split; [done|]. split; [constructor|]. apply NoDup_singleton.
  - destruct IH as (l' & -> & Hl' & Hnd).
    pose proof (Hup n e m Hn Hm) as Hlt.
    exists (m :: l'). split; [done|].
    assert (Forall (λ y, n < y) (m :: l')) as Hall.
    { constructor; [done|]. eapply Forall_impl; [exact Hl'|]. simpl. lia. }
    split; [done|]. constructor; [|done].
    intros Hin. rewrite Forall_forall in Hall. specialize (Hall n Hin). lia.
Qed.

Lemma acyclic_increasing h :
  (∀ n e m, h !! n = Some e → CElem m ∈ kids e → n < m) → acyclic h.
Proof.
  intros Hup n l x Hb.
  by destruct (branch_increasing h n l x Hup Hb) as (l' & _ & _ & Hnd).
Qed.

Lemma demo_page_acyclic : acyclic (nodes demo_page).
Proof.
  apply acyclic_increasing.
  assert (map_Forall
            (λ n e, Forall (λ c, Is_true match c with
                                         | CElem m => bool_decide (n < m)
                                         | _ => true
                                         end) (kids e))
            (nodes demo_page)) as Hall by by_compute.
  intros n e m Hn Hm. specialize (Hall n e Hn).
  rewrite Forall_forall in Hall. apply (bool_decide_unpack _), (Hall (CElem m) Hm).
Qed.

(** ** Items that are not nested share neither header nor panel

    In a tree two elements that have a common descendant lie on one branch.
    So two accordion items of which neither contains the other get
    different headers and different panels from [querySelector]. *)

Section common_branch.
Context (h : gmap nid element).

Lemma branch_nonempty n l x : branch h n l x → l ≠ [].
Proof. by destruct 1. Qed.

Lemma branch_same_length a b l l' x :
  one_parent h → branch h a l x → branch h b l' x → length l = length l' → a = b.
Proof.
  intros Hone Ha. revert b l'.
  induction Ha as [a e Ha|a e m l x Ha Hm Hb IH]; intros b l' Hb' Hlen.
  - destruct Hb' as [b e' Hb'|b e' m' l' x Hb' Hm' Hbr]; [done|].
    apply branch_nonempty in Hbr. destruct l'; simpl in *; [done|lia].
  - destruct Hb' as [b e' Hb'|b e' m' l' x Hb' Hm' Hbr].
    + apply branch_nonempty in Hb. destruct l; simpl in *; [done|lia].
    + simpl in Hlen. assert (m = m') as <- by (eapply IH; [done|lia]).
      by eapply Hone.
Qed.

Lemma branch_drop b l x k :
  branch h b l x → (1 ≤ k)%nat → (k ≤ length l)%nat →
  ∃ c l' l0, branch h c l' x ∧ length l' = k ∧ branch h b l0 c.
Proof.
  induction 1 as [b e Hb|b e m l x Hb Hm Hbr IH]; intros Hk1 Hk; simpl in Hk.
  - exists b, [b], [b]. assert (k = 1) as -> by lia.
    repeat split; by eapply branch_here.
  - destruct (decide (k = S (length l))) as [->|Hne].
    + exists b, (b :: l), [b]. repeat split; [by eapply branch_step|by eapply branch_here].
    + destruct IH as (c & l' & l0 & Hc & Hlen & Hmc); [done|lia|].
      exists c, l', (b :: l0). repeat split; [done..|by eapply branch_step].
Qed.

Lemma branch_length_pos n l x : branch h n l x → (1 ≤ length l)%nat.
Proof. destruct 1; simpl; lia. Qed.

Lemma common_descendant a b l l' x :
  one_parent h → branch h a l x → branch h b l' x →
  (∃ l0, branch h b l0 a) ∨ (∃ l0, branch h a l0 b).
Proof.
  intros Hone Ha Hb.
  destruct (decide (length l ≤ length l')%nat) as [Hle|Hgt].
  - left. destruct (branch_drop b l' x (length l) Hb) as (c & l1 & l0 & Hc & Hlen & Hbc);
      [by eapply branch_length_pos|done|].
    assert (a = c) as -> by (eapply branch_same_length; eauto). eauto.
  - right. destruct (branch_drop a l x (length l') Ha) as (c & l1 & l0 & Hc & Hlen & Hac);
      [by eapply branch_length_pos|lia|].
    assert (b = c) as -> by (eapply branch_same_length; eauto). eauto.
Qed.

End common_branch.

Lemma elem_querySelector_below sel p el n :
  elem_querySelector sel p el = Some n → n ∈ subtree (nodes p) el.
Proof.
  intros [Hn _]%elem_querySelector_Some.
  destruct (subtree (nodes p) el) as [|y l]; simpl in Hn; [done|].
  by apply list_elem_of_further.
Qed.

Lemma separate_items_share_nothing p itemA itemB sel x y :
  acyclic (nodes p) → one_parent (nodes p) →
  itemA ∉ subtree (nodes p) itemB →
  itemB ∉ subtree (nodes p) itemA →
  elem_querySelector sel p itemA = Some x →
  elem_querySelector sel p itemB = Some y →
  x ≠ y.
Proof.
  intros Hacyc Hone HAB HBA Hx%elem_querySelector_below Hy%elem_querySelector_below <-.
  apply subtree_complete in Hx as [l Hl]; [|done].
  apply subtree_complete in Hy as [l' Hl']; [|done].
  destruct (common_descendant _ _ _ _ _ _ Hone Hl Hl') as [[l0 H0]|[l0 H0]].
  - apply HAB, subtree_complete; eauto.
  - apply HBA, subtree_complete; eauto.
Qed.

Lemma demo_page_one_parent : one_parent (nodes demo_page).
Proof.
  assert (map_Forall
            (λ n e, map_Forall
               (λ n' e', Forall (λ c, Forall (λ c', Is_true
                  match c, c' with
                  | CElem m, CElem m' => bool_decide (m = m' → n = n')
                  | _, _ => true
                  end) (kids e')) (kids e))
               (nodes demo_page))
            (nodes demo_page)) as Hall by by_compute.
  intros n n' e e' m Hn Hm Hn' Hm'.
  specialize (Hall n e Hn n' e' Hn'). rewrite Forall_forall in Hall.
  specialize (Hall (CElem m) Hm). rewrite Forall_forall in Hall.
  specialize (Hall (CElem m) Hm'). simpl in Hall.
  by apply (bool_decide_unpack _) in Hall; apply Hall.
Qed.

(** * Further properties of the script *)

(** ** What the two appliers leave alone *)

Lemma bind_from_option {A B} (g : A → option B) (o : option A) :
  o ≫= g = from_option g None o.
Proof. by destruct o. Qed.

(** A part of an element that does not depend on its children is the same
    after a loop that only replaces child lists. *)
Lemma update_all_proj {A} (g : element → A) (d : A) f l p n :
  kids_only f → (∀ k e, g (with_kids k e) = g e) →
  from_option g d (nodes (update_all f l p) !! n) = from_option g d (nodes p !! n).
Proof.
  intros Hf Hg. revert p. induction l as [|m l IH]; intros p; [done|].
  rewrite update_all_cons, IH, lookup_update_node.
  case_decide; [|done].
  destruct (nodes p !! n) as [e|]; simpl; [|done].
  destruct (Hf e) as [k ->]. apply Hg.
Qed.

Lemma update_node_proj {A} (g : element → A) (d : A) f m p n :
  (∀ e, g (f e) = g e) →
  from_option g d (nodes (update_node m f p) !! n) = from_option g d (nodes p !! n).
Proof.
  intros Hg. rewrite lookup_update_node. case_decide; [|done].
  destruct (nodes p !! n) as [e|]; simpl; [|done]. apply Hg.
Qed.

Lemma applyLanguage_proj {A} (g : element → A) (d : A) lang p n :
  (∀ k e, g (with_kids k e) = g e) →
  from_option g d (nodes (applyLanguage lang p) !! n) = from_option g d (nodes p !! n).
Proof.
  intros Hg. unfold applyLanguage. simpl. rewrite foldl_translate, foldl_label.
  rewrite update_all_proj by (done || apply kids_only_with_kids).
  by rewrite update_all_proj by (done || apply translated_kids_only).
Qed.

Lemma applyTheme_proj {A} (g : element → A) (d : A) v theme p n :
  (∀ k e, g (with_kids k e) = g e) →
  (∀ e, g (with_attrs <["data-theme" := theme_attr theme]> e) = g e) →
  from_option g d (nodes (applyTheme v theme p) !! n) = from_option g d (nodes p !! n).
Proof.
  intros Hg Hg'. unfold applyTheme. simpl. rewrite foldl_show_theme.
  rewrite update_all_proj by (done || apply kids_only_with_kids).
  by apply update_node_proj.
Qed.

Lemma classes_applyLanguage lang p n : classes (applyLanguage lang p) n = classes p n.
Proof. by apply applyLanguage_proj. Qed.

Lemma classes_applyTheme v theme p n : classes (applyTheme v theme p) n = classes p n.
Proof. by apply applyTheme_proj. Qed.

Lemma clickListeners_applyLanguage lang p :
  clickListeners (applyLanguage lang p) = clickListeners p.
Proof.
  unfold applyLanguage. simpl. rewrite foldl_translate, foldl_label.
  unfold update_all. by rewrite !(foldl_proj clickListeners).
Qed.

Lemma clickListeners_applyTheme v theme p :
  clickListeners (applyTheme v theme p) = clickListeners p.
Proof.
  unfold applyTheme. simpl. rewrite foldl_show_theme.
  unfold update_all. by rewrite !(foldl_proj clickListeners).
Qed.

(** X1: [applyLanguage] changes text and the stored language and nothing
    else: every element keeps its class list, its height override and all
    its attributes, the stored theme is the one from before, and no
    callback is registered or dropped. *)
Theorem applyLanguage_only_text (lang : string) (p : page) :
  (∀ n, classes (applyLanguage lang p) n = classes p n
        ∧ style_maxHeight (applyLanguage lang p) n = style_maxHeight p n
        ∧ ∀ k, getAttribute (applyLanguage lang p) n k = getAttribute p n k)
  ∧ localStorage_getItem LS_THEME (applyLanguage lang p) = localStorage_getItem LS_THEME p
  ∧ clickListeners (applyLanguage lang p) = clickListeners p.
Proof.
  split; [|split].
  - intros n. split; [apply classes_applyLanguage|]. split.
    + unfold style_maxHeight. rewrite !bind_from_option. by apply applyLanguage_proj.
    + intros k. unfold getAttribute. rewrite !bind_from_option.
      by apply (applyLanguage_proj (λ e, attrs e !! k)).
  - unfold localStorage_getItem. rewrite localStorage_applyLanguage.
    by rewrite lookup_insert_ne.
  - apply clickListeners_applyLanguage.
Qed.

(** X2: [applyTheme] changes the [data-theme] attribute of the document
    element, the content of the theme buttons and the stored theme, and
    nothing else: class lists, height overrides, every other attribute of
    every element and the stored language are the ones from before. *)
Theorem applyTheme_only_theme (v : variant) (theme : string) (p : page) :
  (∀ n, classes (applyTheme v theme p) n = classes p n
        ∧ style_maxHeight (applyTheme v theme p) n = style_maxHeight p n
        ∧ ∀ k, k ≠ "data-theme" →
               getAttribute (applyTheme v theme p) n k = getAttribute p n k)
  ∧ (∀ n k, n ≠ documentElement p →
            getAttribute (applyTheme v theme p) n k = getAttribute p n k)
  ∧ localStorage_getItem LS_LANG (applyTheme v theme p) = localStorage_getItem LS_LANG p
  ∧ clickListeners (applyTheme v theme p) = clickListeners p.
Proof.
  split; [|split; [|split]].
  - intros n. split; [apply classes_applyTheme|]. split.
    + unfold style_maxHeight. rewrite !bind_from_option. by apply applyTheme_proj.
    + intros k Hk. unfold getAttribute. rewrite !bind_from_option.
      apply (applyTheme_proj (λ e, attrs e !! k)); [done|].
      intros e. simpl. by rewrite lookup_insert_ne.
  - intros n k Hn. unfold getAttribute.
    rewrite applyTheme_lookup. cbv zeta. rewrite !lookup_setAttribute.
    rewrite (decide_False (P := documentElement p = n)) by done.
    case_decide; [|done]. by destruct (nodes p !! n).
  - unfold localStorage_getItem. rewrite localStorage_applyTheme.
    by rewrite lookup_insert_ne.
  - apply clickListeners_applyTheme.
Qed.

(** ** Class lists *)

Lemma elem_of_token_add_iff c d l : d ∈ token_add c l ↔ d ∈ l ∨ d = c.
Proof.
  unfold token_add. case_decide.
  - split; [by left|]. by intros [?| ->].
  - rewrite elem_of_app, list_elem_of_singleton. done.
Qed.

Lemma elem_of_token_remove_iff c d l : d ∈ token_remove c l ↔ d ∈ l ∧ d ≠ c.
Proof. unfold token_remove. rewrite list_elem_of_filter. tauto. Qed.

Lemma elem_of_classes_add n c p m d :
  d ∈ classes (classList_add n c p) m
  ↔ d ∈ classes p m ∨ (d = c ∧ n = m ∧ is_Some (nodes p !! m)).
Proof.
  unfold classes, classList_add. rewrite lookup_update_node.
  destruct (decide (n = m)) as [->|Hne].
  - destruct (nodes p !! m) as [e|]; simpl.
    + rewrite elem_of_token_add_iff. split; [|tauto].
      intros [?| ->]; [by left|]. right. eauto.
    + split; [by left|]. intros [?|(_ & _ & [? ?])]; done.
  - split; [by left|]. intros [?|(_ & ? & _)]; done.
Qed.

Lemma elem_of_classes_remove n c p m d :
  d ∈ classes (classList_remove n c p) m
  ↔ d ∈ classes p m ∧ ¬ (d = c ∧ n = m).
Proof.
  unfold classes, classList_remove. rewrite lookup_update_node.
  destruct (decide (n = m)) as [->|Hne].
  - destruct (nodes p !! m) as [e|]; simpl.
    + rewrite elem_of_token_remove_iff. tauto.
    + split; [by intros ?%elem_of_nil|by intros [?%elem_of_nil _]].
  - tauto.
Qed.

Lemma classes_setAttribute n k a p m : classes (setAttribute n k a p) m = classes p m.
Proof. by apply update_node_proj. Qed.

Lemma classes_set_style_maxHeight n a p m :
  classes (set_style_maxHeight n a p) m = classes p m.
Proof. by apply update_node_proj. Qed.

Lemma elem_of_classes_toggle n c p m d :
  d ∈ classes (classList_toggle n c p).2 m
  ↔ if decide (d = c ∧ n = m)
    then (c ∉ classes p m) ∧ is_Some (nodes p !! m)
    else d ∈ classes p m.
Proof.
  unfold classList_toggle.
  destruct (decide (c ∈ classes p n)) as [Hin|Hnin]; simpl.
  - rewrite elem_of_classes_remove. case_decide as Hd.
    + destruct Hd as [-> ->]. tauto.
    + tauto.
  - rewrite elem_of_classes_add. case_decide as Hd.
    + destruct Hd as [-> ->]. tauto.
    + tauto.
Qed.

Lemma classes_accordion_click E item btn panel p m d :
  d ∈ classes (accordion_click E item btn panel p) m
  ↔ d ∈ classes (classList_toggle item "open" p).2 m.
Proof.
  unfold accordion_click.
  destruct (classList_toggle item "open" p) as [[] p1]; simpl;
    by rewrite classes_set_style_maxHeight, classes_setAttribute.
Qed.

Lemma classes_menu_toggle_click btn nav p m d :
  d ∈ classes (menu_toggle_click btn nav p) m
  ↔ d ∈ classes (classList_toggle nav "open" p).2 m.
Proof.
  unfold menu_toggle_click.
  destruct (classList_toggle nav "open" p) as [[] p1]; simpl;
    by rewrite classes_setAttribute.
Qed.

(** X3: the only class token a click callback of the script ever adds or
    removes is [open]: whatever callback runs, every element carries any
    other token afterwards exactly when it carried it before.  In
    particular no click removes the [visible] marker of a revealed
    element. *)
Theorem run_listener_other_classes (v : variant) (E : env) (l : listener) (p : page)
    (n : nid) (c : string) :
  c ≠ "open" → (c ∈ classes (run_listener v E l p) n ↔ c ∈ classes p n).
Proof.
  intros Hc. destruct l as [item btn panel|btn nav|nav| |]; simpl.
  - rewrite classes_accordion_click, elem_of_classes_toggle.
    by rewrite decide_False by (by intros [? _]).
  - rewrite classes_menu_toggle_click, elem_of_classes_toggle.
    by rewrite decide_False by (by intros [? _]).
  - unfold nav_link_click. rewrite elem_of_classes_remove. tauto.
  - unfold lang_toggle_click. by rewrite classes_applyLanguage.
  - unfold theme_toggle_click. by rewrite classes_applyTheme.
Qed.

Lemma run_listener_other_classes_witness :
  "visible" ∈ classes
    (run_listener ScriptJs demo_env (AccordionClick 14 11 12)
       (observer_callback [(14, true)] demo_page)) 14.
Proof.
  apply (run_listener_other_classes ScriptJs demo_env (AccordionClick 14 11 12)
           (observer_callback [(14, true)] demo_page) 14 "visible"); [done|].
  by_compute.
Defined.

Lemma is_Some_update_node_iff n f p m :
  is_Some (nodes (update_node n f p) !! m) ↔ is_Some (nodes p !! m).
Proof.
  rewrite lookup_update_node. case_decide; [|done]. by rewrite fmap_is_Some.
Qed.

Lemma is_Some_accordion_click E item btn panel p m :
  is_Some (nodes (accordion_click E item btn panel p) !! m) ↔ is_Some (nodes p !! m).
Proof.
  unfold accordion_click, classList_toggle.
  case_decide; unfold set_style_maxHeight, setAttribute, classList_remove, classList_add;
    by rewrite !is_Some_update_node_iff.
Qed.

Lemma is_Some_menu_toggle_click btn nav p m :
  is_Some (nodes (menu_toggle_click btn nav p) !! m) ↔ is_Some (nodes p !! m).
Proof.
  unfold menu_toggle_click, classList_toggle.
  case_decide; unfold setAttribute, classList_remove, classList_add;
    by rewrite !is_Some_update_node_iff.
Qed.

Lemma classes_is_Some p n c : c ∈ classes p n → is_Some (nodes p !! n).
Proof.
  unfold classes. destruct (nodes p !! n); [eauto|by intros ?%elem_of_nil].
Qed.

Lemma open_after_accordion_click E item btn panel p :
  "open" ∈ classes (accordion_click E item btn panel p) item
  ↔ ("open" ∉ classes p item) ∧ is_Some (nodes p !! item).
Proof.
  by rewrite classes_accordion_click, elem_of_classes_toggle, decide_True.
Qed.

Lemma open_after_menu_toggle_click btn nav p :
  "open" ∈ classes (menu_toggle_click btn nav p) nav
  ↔ ("open" ∉ classes p nav) ∧ is_Some (nodes p !! nav).
Proof.
  by rewrite classes_menu_toggle_click, elem_of_classes_toggle, decide_True.
Qed.

(** X4: each togglable unit is a two-state machine: running the click
    callback of an accordion item twice, or that of the menu button twice,
    leaves the [open] marker of the item, respectively of the link
    container, present exactly when it was present before. *)
Theorem toggle_twice (v : variant) (E : env) (p : page) :
  (∀ item btn panel,
     let click := run_listener v E (AccordionClick item btn panel) in
     "open" ∈ classes (click (click p)) item ↔ "open" ∈ classes p item)
  ∧ (∀ btn nav,
       let click := run_listener v E (MenuToggleClick btn nav) in
       "open" ∈ classes (click (click p)) nav ↔ "open" ∈ classes p nav).
Proof.
  split.
  - intros item btn panel click. subst click. simpl.
    rewrite !open_after_accordion_click, is_Some_accordion_click.
    pose proof (classes_is_Some p item "open").
    destruct (decide ("open" ∈ classes p item)); tauto.
  - intros btn nav click. subst click. simpl.
    rewrite !open_after_menu_toggle_click, is_Some_menu_toggle_click.
    pose proof (classes_is_Some p nav "open").
    destruct (decide ("open" ∈ classes p nav)); tauto.
Qed.

Lemma getAttribute_setAttribute_eq n k a p :
  is_Some (nodes p !! n) → getAttribute (setAttribute n k a p) n k = Some a.
Proof.
  intros [e He]. unfold getAttribute. rewrite lookup_setAttribute, decide_True by done.
  rewrite He. simpl. apply lookup_insert_eq.
Qed.

(** X5: the click callback of the menu button flips the [open] marker of
    the link container and leaves [aria-expanded] of the button saying
    whether the container is now open. *)
Theorem menu_toggle_click_mirrors (v : variant) (E : env) (btn nav : nid) (p : page) :
  is_Some (nodes p !! btn) →
  is_Some (nodes p !! nav) →
  let q := run_listener v E (MenuToggleClick btn nav) p in
  ("open" ∈ classes q nav ↔ "open" ∉ classes p nav)
  ∧ getAttribute q btn "aria-expanded"
    = Some (if decide ("open" ∈ classes q nav) then "true" else "false").
Proof.
  intros Hbtn Hnav q. subst q. simpl. split.
  - rewrite open_after_menu_toggle_click. tauto.
  - destruct (decide ("open" ∈ classes (menu_toggle_click btn nav p) nav)) as [Hq|Hq];
      rewrite open_after_menu_toggle_click in Hq;
      unfold menu_toggle_click, classList_toggle.
    + rewrite decide_False by tauto.
      apply getAttribute_setAttribute_eq.
      by apply is_Some_update_node_iff.
    + rewrite decide_True by (destruct (decide ("open" ∈ classes p nav)); tauto).
      apply getAttribute_setAttribute_eq.
      by apply is_Some_update_node_iff.
Qed.

Lemma menu_toggle_click_mirrors_witness :
  let q := run_listener ScriptJs demo_env (MenuToggleClick 2 3) demo_page in
  "open" ∈ classes demo_page 3
  ∧ ("open" ∉ classes q 3)
  ∧ getAttribute q 2 "aria-expanded" = Some "false".
Proof.
  intros q.
  destruct (menu_toggle_click_mirrors ScriptJs demo_env 2 3 demo_page)
    as [Hflip Haria]; [by_compute|by_compute|].
  fold q in Hflip, Haria.
  assert ("open" ∈ classes demo_page 3) as Hopen by by_compute.
  assert ("open" ∉ classes q 3) as Hclosed by tauto.
  rewrite decide_False in Haria by done. done.
Defined.

(** ** The observer callback *)

Lemma is_Some_reveal q e t : is_Some (nodes (reveal q e) !! t) ↔ is_Some (nodes q !! t).
Proof.
  unfold reveal. destruct e as [n []]; simpl; [|done].
  apply is_Some_update_node_iff.
Qed.

Lemma reveal_proj {A} (g : element → A) (d : A) q e n :
  (∀ f x, g (with_classList f x) = g x) →
  from_option g d (nodes (reveal q e) !! n) = from_option g d (nodes q !! n).
Proof.
  intros Hg. unfold reveal. destruct e as [m []]; simpl; [|done].
  by apply update_node_proj.
Qed.

(** X6: what one notification does.  Afterwards an element carries a class
    token exactly when it carried it before or the token is [visible] and
    some entry of the batch reports the element as intersecting; entries
    that report no intersection have no effect.  Attributes, children and
    the store are untouched. *)
Theorem observer_callback_effect (entries : list (nid * bool)) (p : page) :
  (∀ t c, c ∈ classes (observer_callback entries p) t
          ↔ c ∈ classes p t
            ∨ (c = "visible" ∧ (t, true) ∈ entries ∧ is_Some (nodes p !! t)))
  ∧ (∀ t k, getAttribute (observer_callback entries p) t k = getAttribute p t k)
  ∧ (∀ t, childNodes (observer_callback entries p) t = childNodes p t)
  ∧ localStorage (observer_callback entries p) = localStorage p.
Proof.
  unfold observer_callback. split; [|split; [|split]].
  - revert p. induction entries as [|e es IH]; intros p t c.
    { simpl. split; [by left|]. intros [?|(_ & ?%elem_of_nil & _)]; done. }
    simpl. rewrite IH, is_Some_reveal.
    assert (c ∈ classes (reveal p e) t
            ↔ c ∈ classes p t ∨ (c = "visible" ∧ e = (t, true) ∧ is_Some (nodes p !! t)))
      as ->.
    { unfold reveal. destruct e as [n []]; simpl.
      - rewrite elem_of_classes_add. split; [|intros [?|(? & ? & ?)]; simplify_eq; auto].
        intros [?|(? & ? & ?)]; subst; auto.
      - split; [by left|]. by intros [?|(_ & ? & _)]. }
    rewrite elem_of_cons. split; [|intros [?|(? & [?|?] & ?)]; subst; auto].
    intros [[?|(? & ? & ?)]|(? & ? & ?)]; subst; auto.
  - intros t k. unfold getAttribute. rewrite !bind_from_option.
    revert p. induction entries as [|e es IH]; intros p; [done|].
    simpl. rewrite IH. by apply (reveal_proj (λ x, attrs x !! k)).
  - intros t. unfold childNodes.
    revert p. induction entries as [|e es IH]; intros p; [done|].
    simpl. rewrite IH. by apply reveal_proj.
  - apply foldl_proj. intros q [n []]; done.
Qed.

(** ** The two toggle buttons *)

(** X7: a click on a language button stores ["en"] when ["ml"] was stored
    and ["ml"] in every other case (["en"], nothing, or an unknown value);
    a second click stores the other of the two, so from ["ml"] or ["en"]
    two clicks lead back to the stored language. *)
Theorem lang_toggle_click_flips (p : page) :
  let stored q := localStorage_getItem LS_LANG q in
  (stored p = Some "ml" →
     stored (lang_toggle_click p) = Some "en"
     ∧ stored (lang_toggle_click (lang_toggle_click p)) = Some "ml")
  ∧ (stored p ≠ Some "ml" →
     stored (lang_toggle_click p) = Some "ml"
     ∧ stored (lang_toggle_click (lang_toggle_click p)) = Some "en").
Proof.
  assert (∀ q, localStorage_getItem LS_LANG (lang_toggle_click q)
               = Some (if decide (localStorage_getItem LS_LANG q = Some "ml")
                       then "en" else "ml")) as Hone.
  { intros q. unfold lang_toggle_click. apply applyLanguage_stored. }
  cbv zeta. split; intros Hp; rewrite !Hone.
  - rewrite (decide_True (P := localStorage_getItem LS_LANG p = Some "ml")) by done.
    by rewrite decide_False.
  - rewrite (decide_False (P := localStorage_getItem LS_LANG p = Some "ml")) by done.
    by rewrite decide_True.
Qed.

Lemma lang_toggle_click_flips_witness :
  localStorage_getItem LS_LANG (lang_toggle_click stale_store_page) = Some "ml"
  ∧ localStorage_getItem LS_LANG (lang_toggle_click (lang_toggle_click stale_store_page))
    = Some "en".
Proof.
  destruct (lang_toggle_click_flips stale_store_page) as [_ Hother].
  apply Hother. by vm_compute.
Defined.

Lemma theme_toggle_click_documentElement v p :
  documentElement (theme_toggle_click v p) = documentElement p.
Proof. apply applyTheme_documentElement. Qed.

(** X8: a click on a theme button sets the attribute of the document to
    ["light"] when it was ["dark"] and to ["dark"] in every other case, and
    stores that same value: after a click the stored theme and the applied
    theme agree.  A second click sets the other of the two. *)
Theorem theme_toggle_click_flips (v : variant) (p : page) :
  is_Some (nodes p !! documentElement p) →
  let applied q := getAttribute q (documentElement p) "data-theme" in
  applied (theme_toggle_click v p)
  = Some (if decide (applied p = Some "dark") then "light" else "dark")
  ∧ localStorage_getItem LS_THEME (theme_toggle_click v p)
    = applied (theme_toggle_click v p)
  ∧ applied (theme_toggle_click v (theme_toggle_click v p))
    = Some (if decide (applied p = Some "dark") then "dark" else "light").
Proof.
  intros Hroot applied.
  assert (∀ q, documentElement q = documentElement p →
               is_Some (nodes q !! documentElement q) →
               applied (theme_toggle_click v q)
               = Some (if decide (applied q = Some "dark") then "light" else "dark")
               ∧ localStorage_getItem LS_THEME (theme_toggle_click v q)
                 = applied (theme_toggle_click v q)) as Hone.
  { intros q Hq Hsome. unfold applied, theme_toggle_click, localStorage_getItem.
    rewrite <- Hq, applyTheme_getAttribute, applyTheme_stored by done.
    by destruct (decide (getAttribute q (documentElement q) "data-theme" = Some "dark")). }
  destruct (Hone p eq_refl Hroot) as [Hattr Hstore].
  split; [done|]. split; [done|]. unfold applied in *.
  destruct (Hone (theme_toggle_click v p)) as [Hattr2 _].
  { apply theme_toggle_click_documentElement. }
  { rewrite theme_toggle_click_documentElement.
    destruct (getAttribute (theme_toggle_click v p) (documentElement p) "data-theme")
      as [a|] eqn:Ha; [|done].
    unfold getAttribute in Ha.
    destruct (nodes (theme_toggle_click v p) !! documentElement p); [eauto|done]. }
  rewrite Hattr2, Hattr.
  by destruct (decide (getAttribute p (documentElement p) "data-theme" = Some "dark")).
Qed.

Lemma theme_toggle_click_flips_witness :
  getAttribute (theme_toggle_click ScriptJs demo_page) 0 "data-theme" = Some "dark"
  ∧ localStorage_getItem LS_THEME (theme_toggle_click ScriptJs demo_page) = Some "dark".
Proof.
  destruct (theme_toggle_click_flips ScriptJs demo_page) as (Ha & Hs & _); [by_compute|].
  split.
  - etrans; [exact Ha|by vm_compute].
  - etrans; [exact Hs|]. etrans; [exact Ha|by vm_compute].
Defined.

(** ** What the buttons show *)

Lemma update_all_edges f l p m e' :
  (∀ e c, CElem c ∈ kids (f e) → CElem c ∈ kids e) →
  nodes (update_all f l p) !! m = Some e' →
  ∃ e, nodes p !! m = Some e ∧ ∀ c, CElem c ∈ kids e' → CElem c ∈ kids e.
Proof.
  intros Hshrink. revert p. induction l as [|n l IH]; intros p Hm; [by eauto|].
  rewrite update_all_cons in Hm. destruct (IH _ Hm) as (e1 & He1 & Hsub).
  rewrite lookup_update_node in He1. case_decide; [|by eauto].
  destruct (nodes p !! m) as [e|]; simpl in He1; [|done]. simplify_eq.
  exists e. split; [done|]. auto.
Qed.

Lemma update_all_subtree f l p n x :
  (∀ e c, CElem c ∈ kids (f e) → CElem c ∈ kids e) →
  x ∈ subtree (nodes (update_all f l p)) n → x ∈ subtree (nodes p) n.
Proof.
  intros Hshrink. unfold subtree.
  destruct (update_all_rest f l p) as (_ & _ & _ & _ & ->).
  apply tree_order_mono. intros m e'. by apply update_all_edges.
Qed.

Lemma text_children_no_element s c : CElem c ∉ text_children s.
Proof.
  unfold text_children. case_decide; intros Hin;
    inversion Hin as [|? ? ? Hin']; inversion Hin'.
Qed.

Lemma labelled_shrinks lang e c : CElem c ∈ kids (labelled lang e) → CElem c ∈ kids e.
Proof. by intros ?%text_children_no_element. Qed.

Lemma translated_shrinks lang e c :
  CElem c ∈ kids (translated lang e) → CElem c ∈ kids e.
Proof.
  unfold translated.
  destruct (decide (lang = "ml")), (attrs e !! "data-ml"), (attrs e !! "data-en");
    simpl; try done; by intros ?%text_children_no_element.
Qed.

Lemma nodes_applyLanguage lang p :
  let p1 := update_all (translated lang) (querySelectorAll (SelAttr "data-en") p) p in
  nodes (applyLanguage lang p)
  = nodes (update_all (labelled lang) (querySelectorAll lang_toggles p1) p1).
Proof. unfold applyLanguage. simpl. by rewrite foldl_translate, foldl_label. Qed.

Lemma update_all_documentElement f l p :
  documentElement (update_all f l p) = documentElement p.
Proof. by destruct (update_all_rest f l p) as (-> & _). Qed.

(** The language buttons of the document after [applyLanguage] are among
    those the second loop went through. *)
Lemma applyLanguage_buttons lang p btn :
  btn ∈ querySelectorAll lang_toggles (applyLanguage lang p) →
  btn ∈ querySelectorAll lang_toggles
          (update_all (translated lang) (querySelectorAll (SelAttr "data-en") p) p).
Proof.
  unfold querySelectorAll at 1. rewrite documentElement_applyLanguage.
  rewrite nodes_applyLanguage. cbv zeta.
  set (p1 := update_all (translated lang) (querySelectorAll (SelAttr "data-en") p) p).
  rewrite elem_of_select. intros [Hm Hin].
  unfold querySelectorAll. apply elem_of_select. split.
  - by rewrite update_all_matches in Hm by apply kids_only_with_kids.
  - unfold p1 at 2. rewrite update_all_documentElement.
    eapply update_all_subtree; [apply labelled_shrinks|done].
Qed.

(** X9: after [applyLanguage] every language button of the document shows
    the short code of the language: [ML] for ["ml"] and [EN] for every
    other code. *)
Theorem applyLanguage_labels_buttons (lang : string) (p : page) (btn : nid) :
  btn ∈ querySelectorAll lang_toggles (applyLanguage lang p) →
  textContent (applyLanguage lang p) btn = if decide (lang = "ml") then "ML" else "EN".
Proof.
  intros Hbtn. pose proof (applyLanguage_buttons lang p btn Hbtn) as Hin.
  apply querySelectorAll_matches, node_matches_is_Some in Hbtn as [e He].
  assert (nodes (applyLanguage lang p) !! btn = labelled lang <$> nodes p !! btn) as Hq
    by by rewrite applyLanguage_lookup, decide_True.
  destruct (nodes p !! btn) as [e0|]; [|by rewrite Hq in He].
  by eapply textContent_text_children.
Qed.

Lemma applyLanguage_labels_buttons_witness :
  textContent (applyLanguage "ml" demo_page) 7 = "ML"
  ∧ textContent (applyLanguage "fr" demo_page) 7 = "EN".
Proof.
  split.
  - apply (applyLanguage_labels_buttons "ml" demo_page 7). by_compute.
  - apply (applyLanguage_labels_buttons "fr" demo_page 7). by_compute.
Defined.

(** X10: after [applyTheme] every theme button of the document shows the
    icon of the mode a click would switch to: the sun while ["dark"] is
    applied and the moon for every other mode; [script.js] puts the SVG
    markup there, the older copy the emoji as text. *)
Theorem applyTheme_shows_next_mode (v : variant) (theme : string) (p : page) (btn : nid) :
  btn ∈ querySelectorAll theme_toggles (applyTheme v theme p) →
  childNodes (applyTheme v theme p) btn
  = match v with
    | ScriptJs => [CMarkup (if decide (theme = "dark") then SUN_SVG else MOON_SVG)]
    | Part000 => [CText (if decide (theme = "dark") then "☀️" else "🌙")]
    end.
Proof.
  intros Hbtn. pose proof (applyTheme_toggles v theme p btn Hbtn) as Hin.
  apply querySelectorAll_matches, node_matches_is_Some in Hbtn as [e He].
  unfold childNodes. rewrite applyTheme_lookup, decide_True in * by done.
  destruct (nodes _ !! btn) as [e0|]; simpl in *; [|done].
  destruct v; simpl; unfold markup_children, text_children;
    destruct (decide (theme = "dark")); by rewrite decide_False by by_compute.
Qed.

Lemma applyTheme_shows_next_mode_witness :
  childNodes (applyTheme ScriptJs "dark" demo_page) 8 = [CMarkup SUN_SVG]
  ∧ childNodes (applyTheme Part000 "light" demo_page) 8 = [CText "🌙"].
Proof.
  split.
  - apply (applyTheme_shows_next_mode ScriptJs "dark" demo_page 8). by_compute.
  - apply (applyTheme_shows_next_mode Part000 "light" demo_page 8). by_compute.
Defined.

(** ** Switching the language back and forth *)

Lemma update_all_ext f g l p :
  (∀ e, f e = g e) → update_all f l p = update_all g l p.
Proof.
  intros Hfg. revert p. induction l as [|n l IH]; intros p; [done|].
  rewrite !update_all_cons, IH. f_equal. apply update_node_ext. auto.
Qed.

Lemma translated_other lang e : lang ≠ "ml" → translated lang e = translated "en" e.
Proof. intros. unfold translated. by rewrite !decide_False by done. Qed.

Lemma localStorage_setItem_twice k a b p :
  localStorage_setItem k a (localStorage_setItem k b p) = localStorage_setItem k a p.
Proof. unfold localStorage_setItem. simpl. f_equal. apply insert_insert_eq. Qed.

(** X11: a language code other than ["ml"] is rendered as English: the
    page after [applyLanguage] with such a code is the page after
    [applyLanguage "en"], except that the store holds the code as given. *)
Theorem applyLanguage_unknown_code (lang : string) (p : page) :
  lang ≠ "ml" →
  applyLanguage lang p = localStorage_setItem LS_LANG lang (applyLanguage "en" p).
Proof.
  intros Hlang. unfold applyLanguage. rewrite localStorage_setItem_twice.
  rewrite !foldl_translate.
  rewrite (update_all_ext (translated lang) (translated "en"))
    by (intros; by apply translated_other).
  unfold lang_label. by rewrite !decide_False by done.
Qed.

Lemma applyLanguage_unknown_code_witness :
  nodes (applyLanguage "fr" demo_page) = nodes (applyLanguage "en" demo_page)
  ∧ localStorage_getItem LS_LANG (applyLanguage "fr" demo_page) = Some "fr".
Proof.
  rewrite (applyLanguage_unknown_code "fr" demo_page) by done.
  split; [done|]. apply lookup_insert_eq.
Defined.

Lemma page_eq p q :
  nodes p = nodes q → documentElement p = documentElement q →
  localStorage p = localStorage q → clickListeners p = clickListeners q →
  observed p = observed q → p = q.
Proof. destruct p, q. simpl. by intros -> -> -> -> ->. Qed.

Lemma observed_applyLanguage lang p : observed (applyLanguage lang p) = observed p.
Proof.
  unfold applyLanguage. simpl. rewrite foldl_translate, foldl_label.
  unfold update_all. by rewrite !(foldl_proj observed).
Qed.

Lemma flat_map_elem_children {A} (F : nid → list A) e :
  flat_map (λ c, match c with CElem m => F m | _ => [] end) (kids e)
  = flat_map F (elem_children e).
Proof.
  unfold elem_children. induction (kids e) as [|[s|m|s] ks IH]; simpl; by rewrite ?IH.
Qed.

(** The walk sees only the element children. *)
Lemma tree_order_elem_children f h h' n :
  (∀ m, elem_children <$> h' !! m = elem_children <$> h !! m) →
  tree_order f h' n = tree_order f h n.
Proof.
  intros Hsame. revert n. induction f as [|f IH]; intros n; [done|].
  simpl. specialize (Hsame n).
  destruct (h' !! n) as [e'|], (h !! n) as [e|]; simpl in Hsame; try done.
  rewrite !flat_map_elem_children. simplify_eq. rewrite Hsame.
  f_equal. apply flat_map_ext. auto.
Qed.

Lemma select_ext sel h h' l :
  (∀ n, node_matches sel h' n = node_matches sel h n) →
  select sel h' l = select sel h l.
Proof.
  intros Hsame. unfold select. apply list_filter_iff. intros n. by rewrite Hsame.
Qed.

Lemma text_children_elem_children s e : elem_children (with_kids (text_children s) e) = [].
Proof. unfold elem_children, text_children. simpl. by case_decide. Qed.

Lemma translated_elem_children lang e :
  is_Some (attrs e !! "data-en") → elem_children (translated lang e) = [].
Proof.
  intros [s Hs]. unfold translated. rewrite Hs.
  destruct (decide (lang = "ml")), (attrs e !! "data-ml");
    apply text_children_elem_children.
Qed.

Lemma translated_translated a b e :
  is_Some (attrs e !! "data-en") → translated a (translated b e) = translated a e.
Proof.
  intros [s Hs]. unfold translated. rewrite Hs.
  destruct (decide (b = "ml")), (attrs e !! "data-ml") eqn:Hml; simpl;
    rewrite ?Hml, ?Hs; by destruct (decide (a = "ml")).
Qed.

(** A page with the same element structure and the same attributes gives
    the same node lists. *)
Lemma querySelectorAll_same sel p q :
  documentElement q = documentElement p →
  (∀ m, elem_children <$> nodes q !! m = elem_children <$> nodes p !! m) →
  (∀ m, node_matches sel (nodes q) m = node_matches sel (nodes p) m) →
  querySelectorAll sel q = querySelectorAll sel p.
Proof.
  intros Hroot Hsame Hmatch. unfold querySelectorAll, subtree.
  rewrite Hroot, (select_ext sel (nodes p) (nodes q)) by done.
  f_equal.
  assert (size (nodes q) = size (nodes p)) as ->.
  { rewrite <- !(size_dom (D := gset nid)). f_equal. apply set_eq. intros m.
    rewrite !elem_of_dom. specialize (Hsame m).
    destruct (nodes q !! m), (nodes p !! m); simpl in Hsame; try done;
      split; intros [? ?]; try done; eauto. }
  by apply tree_order_elem_children.
Qed.

Lemma elem_of_querySelectorAll sel p m :
  m ∈ querySelectorAll sel p
  ↔ m ∈ subtree (nodes p) (documentElement p)
    ∧ ∃ e, nodes p !! m = Some e ∧ matches sel e = true.
Proof.
  unfold querySelectorAll. rewrite elem_of_select. unfold node_matches.
  destruct (nodes p !! m) as [e|]; simpl.
  - split; [intros [? ?]; eauto|]. intros [? (e' & ? & ?)]. by simplify_eq.
  - split; [by intros [? _]|]. by intros [_ (e' & ? & _)].
Qed.

Lemma matches_attr k e : matches (SelAttr k) e = true ↔ is_Some (attrs e !! k).
Proof. simpl. by rewrite bool_decide_eq_true. Qed.

Lemma node_matches_applyLanguage sel lang p m :
  node_matches sel (nodes (applyLanguage lang p)) m = node_matches sel (nodes p) m.
Proof. unfold node_matches. apply applyLanguage_proj. intros. apply matches_with_kids. Qed.

Lemma applyLanguage_subtree lang p x :
  x ∈ subtree (nodes (applyLanguage lang p)) (documentElement p) →
  x ∈ subtree (nodes p) (documentElement p).
Proof.
  rewrite nodes_applyLanguage. cbv zeta.
  intros Hx%update_all_subtree; [|apply labelled_shrinks].
  by apply update_all_subtree in Hx; [|apply translated_shrinks].
Qed.

(** [applyLanguage] adds no element to the document. *)
Lemma querySelectorAll_applyLanguage sel lang p m :
  m ∈ querySelectorAll sel (applyLanguage lang p) → m ∈ querySelectorAll sel p.
Proof.
  unfold querySelectorAll. rewrite !elem_of_select, documentElement_applyLanguage.
  rewrite node_matches_applyLanguage. intros [? ?%applyLanguage_subtree]. done.
Qed.

Section flat.
Context (q : page) (Hflat : flat_targets q).

Lemma flat_target sel m :
  sel = SelAttr "data-en" ∨ sel = lang_toggles →
  m ∈ querySelectorAll sel q →
  ∃ e, nodes q !! m = Some e ∧ matches sel e = true ∧ elem_children e = [].
Proof.
  intros Hsel (Hin & e & He & Hm)%elem_of_querySelectorAll.
  exists e. split; [done|]. split; [done|].
  apply (Hflat m e Hin He). destruct Hsel as [-> | ->]; [left|by right].
  by apply matches_attr.
Qed.

Lemma flat_translate lang m :
  elem_children <$>
    nodes (update_all (translated lang) (querySelectorAll (SelAttr "data-en") q) q) !! m
  = elem_children <$> nodes q !! m.
Proof.
  rewrite lookup_update_all by apply translated_idem.
  case_decide as Hin; [|done].
  destruct (flat_target (SelAttr "data-en") m) as (e & -> & Hm & Hnone); [by left|done|].
  simpl. rewrite Hnone. f_equal. by apply translated_elem_children, matches_attr.
Qed.

Lemma flat_toggles lang :
  querySelectorAll lang_toggles
    (update_all (translated lang) (querySelectorAll (SelAttr "data-en") q) q)
  = querySelectorAll lang_toggles q.
Proof.
  apply querySelectorAll_same.
  - apply update_all_documentElement.
  - apply flat_translate.
  - intros m. apply update_all_matches, translated_kids_only.
Qed.

(** On such a page the two loops of [applyLanguage] go through the
    elements the page shows before the call. *)
Lemma flat_lookup lang m :
  nodes (applyLanguage lang q) !! m
  = if decide (m ∈ querySelectorAll lang_toggles q)
    then labelled lang <$> nodes q !! m
    else if decide (m ∈ querySelectorAll (SelAttr "data-en") q)
         then translated lang <$> nodes q !! m
         else nodes q !! m.
Proof. rewrite applyLanguage_lookup. cbv zeta. by rewrite flat_toggles. Qed.

Lemma flat_structure lang m :
  elem_children <$> nodes (applyLanguage lang q) !! m = elem_children <$> nodes q !! m.
Proof.
  rewrite flat_lookup.
  case_decide as Ht.
  { destruct (flat_target lang_toggles m) as (e & -> & _ & Hnone); [by right|done|].
    simpl. rewrite Hnone. f_equal. apply text_children_elem_children. }
  case_decide as Hl; [|done].
  destruct (flat_target (SelAttr "data-en") m) as (e & -> & Hm & Hnone); [by left|done|].
  simpl. rewrite Hnone. f_equal. by apply translated_elem_children, matches_attr.
Qed.

Lemma flat_lists sel lang :
  querySelectorAll sel (applyLanguage lang q) = querySelectorAll sel q.
Proof.
  apply querySelectorAll_same.
  - apply documentElement_applyLanguage.
  - apply flat_structure.
  - intros m. apply node_matches_applyLanguage.
Qed.

Lemma flat_preserved lang : flat_targets (applyLanguage lang q).
Proof.
  intros m e' Hin He' Htarget.
  assert (∃ sel, (sel = SelAttr "data-en" ∨ sel = lang_toggles) ∧ matches sel e' = true)
    as (sel & Hsel & Hm).
  { destruct Htarget as [Hen|Ht].
    - exists (SelAttr "data-en"). split; [by left|]. by apply matches_attr.
    - exists lang_toggles. split; [by right|done]. }
  assert (m ∈ querySelectorAll sel (applyLanguage lang q)) as Hq
    by (apply elem_of_querySelectorAll; eauto).
  rewrite flat_lists in Hq.
  destruct (flat_target sel m Hsel Hq) as (e & He & _ & Hnone).
  pose proof (flat_structure lang m) as Hs. rewrite He, He' in Hs. simpl in Hs.
  congruence.
Qed.

End flat.

(** On such a page the later of two calls decides. *)
Lemma flat_last_wins q a b :
  flat_targets q → applyLanguage a (applyLanguage b q) = applyLanguage a q.
Proof.
  intros Hflat. apply page_eq.
  - apply map_eq. intros m.
    rewrite (flat_lookup (applyLanguage b q) (flat_preserved q Hflat b) a m).
    rewrite !(flat_lists q Hflat), (flat_lookup q Hflat a m), (flat_lookup q Hflat b m).
    case_decide as Ht; [by destruct (nodes q !! m)|].
    case_decide as Hl; [|done].
    destruct (flat_target q Hflat (SelAttr "data-en") m) as (e & -> & Hm & _);
      [by left|done|].
    simpl. f_equal. by apply translated_translated, matches_attr.
  - by rewrite !documentElement_applyLanguage.
  - rewrite !localStorage_applyLanguage. apply insert_insert_eq.
  - by rewrite !clickListeners_applyLanguage.
  - by rewrite !observed_applyLanguage.
Qed.

(** [applyLanguage] leaves every page in that state. *)
Lemma applyLanguage_flat lang p : flat_targets (applyLanguage lang p).
Proof.
  intros m e' Hin He' Htarget.
  rewrite documentElement_applyLanguage in Hin.
  rewrite applyLanguage_lookup in He'. cbv zeta in He'.
  case_decide as Ht.
  { destruct (nodes p !! m) as [e|]; simpl in He'; [|done]. simplify_eq.
    apply text_children_elem_children. }
  case_decide as Hl.
  { apply elem_of_querySelectorAll in Hl as (_ & e & He & Hm).
    rewrite He in He'. simpl in He'. simplify_eq.
    by apply translated_elem_children, matches_attr. }
  exfalso. destruct Htarget as [Hen|Hbtn].
  - apply Hl, elem_of_querySelectorAll. split; [by eapply applyLanguage_subtree|].
    exists e'. split; [done|]. by apply matches_attr.
  - apply Ht, applyLanguage_buttons, elem_of_querySelectorAll.
    rewrite documentElement_applyLanguage. split; [done|].
    exists e'. split; [|done].
    rewrite applyLanguage_lookup. cbv zeta.
    by rewrite (decide_False (P := m ∈ querySelectorAll lang_toggles _)),
      (decide_False (P := m ∈ querySelectorAll (SelAttr "data-en") p)).
Qed.

Lemma applyLanguage_again lang p :
  applyLanguage lang (applyLanguage lang p) = applyLanguage lang p.
Proof.
  set (q := applyLanguage lang p).
  pose proof (applyLanguage_flat lang p) as Hflat. fold q in Hflat.
  apply page_eq.
  - apply map_eq. intros m. rewrite (flat_lookup q Hflat lang m).
    case_decide as Ht.
    { apply applyLanguage_buttons in Ht. unfold q.
      rewrite applyLanguage_lookup. cbv zeta. rewrite decide_True by done.
      by destruct (nodes p !! m). }
    case_decide as Hl; [|done].
    assert (m ∉ querySelectorAll lang_toggles
                  (update_all (translated lang)
                     (querySelectorAll (SelAttr "data-en") p) p)) as Ht'.
    { intros Hin. apply Ht.
      apply elem_of_querySelectorAll in Hl as (Hsub & e & He & _).
      apply elem_of_querySelectorAll. split; [done|]. exists e. split; [done|].
      apply querySelectorAll_matches in Hin.
      rewrite update_all_matches in Hin by apply translated_kids_only.
      rewrite <- (node_matches_applyLanguage lang_toggles lang p m) in Hin.
      fold q in Hin. unfold node_matches in Hin. by rewrite He in Hin. }
    pose proof (querySelectorAll_applyLanguage _ _ _ _ Hl) as Hl'.
    unfold q. rewrite applyLanguage_lookup. cbv zeta.
    rewrite decide_False, decide_True by done.
    destruct (nodes p !! m); simpl; [|done]. by rewrite translated_idem.
  - unfold q. by rewrite !documentElement_applyLanguage.
  - unfold q. rewrite !localStorage_applyLanguage. apply insert_insert_eq.
  - unfold q. by rewrite !clickListeners_applyLanguage.
  - unfold q. by rewrite !observed_applyLanguage.
Qed.

(** X12: applying a language again changes nothing, and switching to
    another language and back restores the page exactly: text, buttons,
    store and everything else are as after the first call.  So a page
    rendered in Malayalam, switched to English and back to Malayalam is the
    Malayalam page. *)
Theorem applyLanguage_there_and_back (a b : string) (p : page) :
  applyLanguage a (applyLanguage a p) = applyLanguage a p
  ∧ applyLanguage a (applyLanguage b (applyLanguage a p)) = applyLanguage a p.
Proof.
  split; [apply applyLanguage_again|].
  rewrite flat_last_wins by apply applyLanguage_flat. apply applyLanguage_again.
Qed.
